(** * Gesture-driven orbit camera and photo placards

    A shallow embedding of the per-frame camera update of
    [src/components/Experience.tsx], of the placement generator and the
    item animation of [src/components/Polaroids.tsx], and of the mode
    toggle and the photo loader of [src/App.tsx].

    JavaScript numbers are idealised as real numbers: [Math.PI] is [PI],
    [Math.max]/[Math.min] are [Rmax]/[Rmin], [Math.sin]/[Math.cos] are
    [sin]/[cos].  Rounding, infinities and NaN are outside the model. *)

From Stdlib Require Import Reals Lra Psatz List String Bool Arith Lia.
From Stdlib Require Import ZArith Ascii DecimalString DecimalNat.
From Stdlib Require Import Permutation Sorted.
Import ListNotations.

Open Scope R_scope.

(** ** Shared data *)

(** [THREE.Vector3], reduced to its three coordinates. *)
Record Vector3 : Type := mkVector3 { vx : R; vy : R; vz : R }.

(** [TreeMode] of [src/types] (only its two values are used). *)
Inductive TreeMode : Type := FORMED | CHAOS.

(** [Vector3.lerp(v, alpha)]: each coordinate moves by
    [(v - this) * alpha]. *)
Definition Vector3_lerp (p v : Vector3) (alpha : R) : Vector3 :=
  mkVector3 (vx p + (vx v - vx p) * alpha)
            (vy p + (vy v - vy p) * alpha)
            (vz p + (vz v - vz p) * alpha).

(** Euclidean distance between two points. *)
Definition Vector3_distanceTo (p q : Vector3) : R :=
  sqrt ((vx p - vx q) * (vx p - vx q)
        + (vy p - vy q) * (vy p - vy q)
        + (vz p - vz q) * (vz p - vz q)).

(** ** The orbit camera controller, [Experience.tsx] *)

Module Experience.

(** The [handPosition] prop. *)
Record HandPosition : Type := mkHand { x : R; y : R; detected : bool }.

(** What the frame callback reads from and writes to the orbit controls:
    the three spherical coordinates returned by [getAzimuthalAngle],
    [getPolarAngle] and [getDistance], the camera position
    [controls.object.position] and the look-at point [controls.target]. *)
Record Controls : Type := mkControls {
  azimuthalAngle : R;
  polarAngle : R;
  distance : R;
  position : Vector3;
  target : Vector3
}.

(** Line 41. *)
Definition targetAzimuth (hx : R) : R := (hx - 0.5) * PI * 3.

(** Lines 45-46. *)
Definition adjustedY (hy : R) : R := (hy - 0.2) * 2.0.
Definition clampedY (hy : R) : R := Rmax 0 (Rmin 1 (adjustedY hy)).

(** Lines 49-51. *)
Definition minPolar : R := PI / 4.
Definition maxPolar : R := PI / 1.8.
Definition targetPolar (hy : R) : R :=
  minPolar + clampedY hy * (maxPolar - minPolar).

(** Lines 58-60: the difference, then the two successive [if]s. *)
Definition azimuthDiff (targetAz currentAzimuth : R) : R :=
  let d0 := targetAz - currentAzimuth in
  let d1 := if Rlt_dec PI d0 then d0 - PI * 2 else d0 in
  if Rlt_dec d1 (- PI) then d1 + PI * 2 else d1.

(** Lines 63-65. *)
Definition lerpSpeed : R := 8.
Definition newAzimuth (hx currentAzimuth delta : R) : R :=
  currentAzimuth
  + azimuthDiff (targetAzimuth hx) currentAzimuth * delta * lerpSpeed.
Definition newPolar (hy currentPolar delta : R) : R :=
  currentPolar + (targetPolar hy - currentPolar) * delta * lerpSpeed.

(** Lines 71-75. *)
Definition minDistance : R := 8.
Definition maxDistance : R := 30.
Definition normalizedScale (handScale : R) : R :=
  Rmax 0.3 (Rmin 2.5 handScale).
Definition targetDistance (handScale : R) : R :=
  maxDistance
  - (normalizedScale handScale - 0.3) / (2.5 - 0.3)
    * (maxDistance - minDistance).

(** Lines 78-80. *)
Definition distanceLerpSpeed : R := 5.
Definition newDistance (handScale currentDistance delta : R) : R :=
  currentDistance
  + (targetDistance handScale - currentDistance) * delta * distanceLerpSpeed.

(** Lines 83-87. *)
Definition targetY : R := 4.
Definition sphericalPosition (dist pol az : R) : Vector3 :=
  mkVector3 (dist * sin pol * sin az)
            (targetY + dist * cos pol)
            (dist * sin pol * cos az).

(** Lines 34-92, the body of the guarded block: the pose written for this
    frame.  The spherical fields keep the values the frame computed; how
    the controls library re-reads them from the position on
    [controls.update()] is outside the repository. *)
Definition updateControls (delta : R) (hand : HandPosition) (handScale : R)
    (controls : Controls) : Controls :=
  let az := newAzimuth (x hand) (azimuthalAngle controls) delta in
  let pol := newPolar (y hand) (polarAngle controls) delta in
  let dist := newDistance handScale (distance controls) delta in
  mkControls az pol dist
             (sphericalPosition dist pol az)
             (mkVector3 0 targetY 0).

(** Lines 32-94: the callback given to [useFrame].  [controlsRef] is
    [None] while the ref is still [null]. *)
Definition useFrame (delta : R) (hand : HandPosition) (handScale : R)
    (controlsRef : option Controls) : option Controls :=
  match controlsRef with
  | Some controls =>
      if detected hand
      then Some (updateControls delta hand handScale controls)
      else controlsRef
  | None => controlsRef
  end.

(** One rendered frame: the frame time and the props of that render. *)
Record Frame : Type := mkFrame {
  frameDelta : R;
  frameHand : HandPosition;
  frameScale : R
}.

(** The callback run over successive frames: each frame reads the
    spherical coordinates the previous one wrote.  The code reads them
    back from the controls after [controls.update()], under the limits of
    lines 100-103, so this agrees with the program as long as the written
    polar angle and distance stay within those limits. *)
Fixpoint runFrames (frames : list Frame) (controlsRef : option Controls)
    : option Controls :=
  match frames with
  | [] => controlsRef
  | f :: rest =>
      runFrames rest
        (useFrame (frameDelta f) (frameHand f) (frameScale f) controlsRef)
  end.

(** The limits given to the controls (lines 100-103). *)
Definition inLimits (controls : Controls) : Prop :=
  minPolar <= polarAngle controls <= maxPolar
  /\ minDistance <= distance controls <= maxDistance.

End Experience.

(** ** The photo placards, [Polaroids.tsx] *)

Module Polaroids.

(** [Math.random()] as explicit state: a sequence of draws and the number
    of draws already consumed. *)
Record Rng : Type := mkRng { draws : nat -> R; consumed : nat }.

Definition Math_random (g : Rng) : R * Rng :=
  (draws g (consumed g), mkRng (draws g) (S (consumed g))).

(** [interface PhotoData].  [url] is [uploadedPhotos[i]], which JavaScript
    evaluates to [undefined] past the end of the array: [None] here. *)
Record PhotoData : Type := mkPhotoData {
  id : nat;
  url : option string;
  chaosPos : Vector3;
  targetPos : Vector3;
  speed : R
}.

(** Lines 182-183. *)
Definition height : R := 9.
Definition maxRadius : R := 5.0.

(** Line 190. *)
Definition yNorm (i count : nat) : R := 0.2 + (INR i / INR count) * 0.6.

(** Line 194. *)
Definition radius (i count : nat) : R :=
  maxRadius * (1 - yNorm i count) + 0.8.

(** Line 197. *)
Definition theta (i : nat) : R := INR i * 2.39996.

(** Lines 191 and 199-203. *)
Definition formedPosition (i count : nat) : Vector3 :=
  mkVector3 (radius i count * cos (theta i))
            (yNorm i count * height)
            (radius i count * sin (theta i)).

(** Lines 208-220, given the two random quantities of lines 213-214. *)
Definition relativeY : R := 5.
Definition relativeZ : R := 20.
Definition chaosPosition (i count : nat) (dist heightSpread : R) : Vector3 :=
  let angle := (INR i / INR count) * PI * 2 in
  mkVector3 (dist * cos angle * 1.2)
            (relativeY + heightSpread)
            (relativeZ - 4 + dist * sin angle * 0.5).

(** One iteration of the loop body, lines 188-228.  The three draws are
    taken in the order the source evaluates them. *)
Definition loopBody (uploadedPhotos : list string) (count i : nat) (g : Rng)
    : PhotoData * Rng :=
  let '(r1, g1) := Math_random g in
  let dist := 3 + r1 * 4 in
  let '(r2, g2) := Math_random g1 in
  let heightSpread := (r2 - 0.5) * 8 in
  let '(r3, g3) := Math_random g2 in
  (mkPhotoData i
               (nth_error uploadedPhotos i)
               (chaosPosition i count dist heightSpread)
               (formedPosition i count)
               (0.8 + r3 * 1.5),
   g3).

(** [for (let i = 0; i < count; i++) { ...; data.push(...) }], with
    [remaining] = [count - i] iterations left. *)
Fixpoint forLoop (uploadedPhotos : list string) (count remaining i : nat)
    (g : Rng) (data : list PhotoData) : list PhotoData * Rng :=
  match remaining with
  | O => (data, g)
  | S remaining' =>
      let '(d, g') := loopBody uploadedPhotos count i g in
      forLoop uploadedPhotos count remaining' (S i) g' (data ++ [d])
  end.

(** Lines 175-231, the function memoised by [useMemo]. *)
Definition photoData (uploadedPhotos : list string) (g : Rng)
    : list PhotoData * Rng :=
  if (List.length uploadedPhotos =? 0)%nat then ([], g)
  else
    let count := List.length uploadedPhotos in
    forLoop uploadedPhotos count count 0%nat g [].

(** What the item's frame callback writes on [groupRef.current]: its
    position and its uniform scale.  The orientation (lines 100-128) is
    not modelled. *)
Record Group : Type := mkGroup { position : Vector3; scale : R }.

(** Lines 94-97. *)
Definition minPhotoScale : R := 0.8.
Definition maxPhotoScale : R := 2.0.
Definition normalizedScale (handScale : R) : R :=
  Rmax 0.3 (Rmin 2.5 handScale).
Definition photoScale (handScale : R) : R :=
  minPhotoScale
  + (normalizedScale handScale - 0.3) / (2.5 - 0.3)
    * (maxPhotoScale - minPhotoScale).

(** Line 85. *)
Definition selectTarget (mode : TreeMode) (data : PhotoData) : Vector3 :=
  match mode with
  | FORMED => targetPos data
  | CHAOS => chaosPos data
  end.

(** Lines 67-98 of the item's [useFrame] callback; [groupRef] is [None]
    while the ref is still [null] (line 68). *)
Definition useFrame (mode : TreeMode) (data : PhotoData) (handScale : R)
    (delta : R) (groupRef : option Group) : option Group :=
  match groupRef with
  | None => None
  | Some group =>
      let step := delta * speed data in
      Some (mkGroup (Vector3_lerp (position group) (selectTarget mode data) step)
                    (photoScale handScale))
  end.

(** The item callback over the first [n] frames; frame [k] has frame time
    [deltas k] and hand scale [scales k]. *)
Fixpoint runFrames (mode : TreeMode) (data : PhotoData)
    (scales deltas : nat -> R) (n : nat) (groupRef : option Group)
    : option Group :=
  match n with
  | O => groupRef
  | S k =>
      useFrame mode data (scales k) (deltas k)
               (runFrames mode data scales deltas k groupRef)
  end.

(** [THREE.Euler], reduced to its three angles. *)
Record Euler : Type := mkEuler { ex : R; ey : R; ez : R }.

(** Lines 112-128: the angles assigned to [rotation.x] and [rotation.z]
    on top of [currentRot], the Euler angles of the orientation reached by
    the slerp; [rotation.y] is not assigned. *)
Definition secondaryMotion (mode : TreeMode) (time offset : R)
    (currentRot : Euler) : Euler :=
  match mode with
  | FORMED =>
      let swayAngle := sin (time * 2.0 + offset) * 0.05 in
      let tiltAngle := cos (time * 1.5 + offset) * 0.03 in
      mkEuler (ex currentRot + tiltAngle) (ey currentRot)
              (ez currentRot + swayAngle)
  | CHAOS =>
      let wobbleX := sin (time * 1.5 + offset) * 0.03 in
      let wobbleZ := cos (time * 1.2 + offset) * 0.03 in
      mkEuler (ex currentRot + wobbleX) (ey currentRot)
              (ez currentRot + wobbleZ)
  end.

End Polaroids.

(** ** The host component, [App.tsx] *)

Module App.

(** Lines 99-101. *)
Definition toggleMode (prev : TreeMode) : TreeMode :=
  match prev with
  | FORMED => CHAOS
  | CHAOS => FORMED
  end.

(** Line 58. *)
Definition maxPhotos : nat := 32.

(** Line 64: the template literal, with the number in decimal. *)
Definition photoPath (i : nat) : string :=
  ("/photos/" ++ NilEmpty.string_of_uint (Nat.to_uint i) ++ ".jpg")%string.

(** [\d] of the regular expression. *)
Definition isDigit (c : ascii) : bool :=
  ((48 <=? nat_of_ascii c) && (nat_of_ascii c <=? 57))%nat.

(** The longest run of digits at the head of a string, and what follows. *)
Fixpoint spanDigits (s : string) : string * string :=
  match s with
  | EmptyString => (EmptyString, EmptyString)
  | String c rest =>
      if isDigit c
      then let '(ds, tl) := spanDigits rest in (String c ds, tl)
      else (EmptyString, s)
  end.

(** [(\d+)\.jpg$] tried right after a slash: the digits must be followed
    by [.jpg] and the end of the string.  A shorter run of digits cannot
    match, since the next character would be a digit and not the dot. *)
Definition matchAfterSlash (rest : string) : option string :=
  let '(ds, tl) := spanDigits rest in
  if (ds =? "")%string then None
  else if (tl =? ".jpg")%string then Some ds
  else None.

(** [a.match(/\/(\d+)\.jpg$/)?.[1]]: the first group of the leftmost
    match, [None] for [undefined]. *)
Fixpoint matchGroup (s : string) : option string :=
  match s with
  | EmptyString => None
  | String c rest =>
      if (c =? "/")%char
      then match matchAfterSlash rest with
           | Some ds => Some ds
           | None => matchGroup rest
           end
      else matchGroup rest
  end.

(** [parseInt] on the strings it is given here: the value of the leading
    run of decimal digits, [None] (NaN) when there is none.  Leading white
    space, signs and the [0x] prefix are not modelled. *)
Definition parseInt (s : string) : option nat :=
  let '(ds, _) := spanDigits s in
  if (ds =? "")%string then None
  else option_map Nat.of_uint (NilEmpty.uint_of_string ds).

(** Lines 86-87: [parseInt(a.match(...)?.[1] || '0')]; the empty string
    is falsy as [undefined] is. *)
Definition photoNumber (a : string) : option nat :=
  parseInt (match matchGroup a with
            | Some ds => if (ds =? "")%string then "0"%string else ds
            | None => "0"%string
            end).

(** Lines 85-89: the comparator [numA - numB].  A NaN result counts as 0
    for [Array.prototype.sort]. *)
Definition compareByNumber (a b : string) : Z :=
  match photoNumber a, photoNumber b with
  | Some numA, Some numB => (Z.of_nat numA - Z.of_nat numB)%Z
  | _, _ => 0%Z
  end.

(** [Array.prototype.sort(compareFn)], a stable sort: here by insertion,
    each element going before the first one it does not compare greater
    than. *)
Fixpoint insertSorted (compareFn : string -> string -> Z) (a : string)
    (l : list string) : list string :=
  match l with
  | [] => [a]
  | b :: rest =>
      if (compareFn a b <=? 0)%Z then a :: l
      else b :: insertSorted compareFn a rest
  end.

Definition Array_sort (compareFn : string -> string -> Z)
    (l : list string) : list string :=
  fold_right (insertSorted compareFn) [] l.

(** Lines 56-94.  Image [i] loads when [loads i] holds; [completionOrder]
    lists the numbers of the images in the order in which their [onload]
    or [onerror] fires, which is the order of the pushes.  After all of
    them the paths are sorted, and the state is set only if some image
    loaded; the result is the [uploadedPhotos] state afterwards. *)
Definition loadPredefinedPhotos (loads : nat -> bool)
    (completionOrder : list nat) (uploadedPhotos : list string)
    : list string :=
  let photoUrls := map photoPath (filter loads completionOrder) in
  let photoUrls := Array_sort compareByNumber photoUrls in
  if (0 <? List.length photoUrls)%nat then photoUrls else uploadedPhotos.

End App.

(** ** Properties of the orbit camera controller *)

Module ExperienceProps.
Import Experience.

(** *** Arithmetic helpers *)

Lemma PI_bounds : 3.1415 < PI < 3.1416.
Proof.
  pose proof (Machin.PI_2_3_7_ineq 2) as H.
  unfold Machin.PI_2_3_7_tg, tg_alt, Ratan_seq in H.
  simpl in H.
  lra.
Qed.

Lemma clamp_bounds (lo hi v : R) :
  lo <= hi -> lo <= Rmax lo (Rmin hi v) <= hi.
Proof.
  intros Hlh. unfold Rmax, Rmin.
  destruct (Rle_dec hi v); destruct (Rle_dec lo _); lra.
Qed.

Lemma clamp_monotone (lo hi v w : R) :
  lo <= hi -> v <= w -> Rmax lo (Rmin hi v) <= Rmax lo (Rmin hi w).
Proof.
  intros Hlh Hvw. unfold Rmax, Rmin.
  destruct (Rle_dec hi v); destruct (Rle_dec hi w);
    repeat match goal with |- context [Rle_dec ?a ?b] => destruct (Rle_dec a b) end;
    lra.
Qed.

Lemma polar_limits_ordered : minPolar < maxPolar.
Proof. unfold minPolar, maxPolar. pose proof PI_RGT_0. lra. Qed.

Lemma clampedY_bounds (hy : R) : 0 <= clampedY hy <= 1.
Proof. unfold clampedY. apply clamp_bounds. lra. Qed.

Lemma normalizedScale_bounds (handScale : R) :
  0.3 <= normalizedScale handScale <= 2.5.
Proof. unfold normalizedScale. apply clamp_bounds. lra. Qed.

Lemma targetPolar_bounds (hy : R) : minPolar <= targetPolar hy <= maxPolar.
Proof.
  unfold targetPolar.
  pose proof (clampedY_bounds hy). pose proof polar_limits_ordered.
  split; nra.
Qed.

Lemma targetDistance_bounds (handScale : R) :
  minDistance <= targetDistance handScale <= maxDistance.
Proof.
  unfold targetDistance, minDistance, maxDistance.
  pose proof (normalizedScale_bounds handScale). lra.
Qed.

(** Easing by a factor in [[0,1]] stays between the current value and the
    target, hence inside any interval that holds both. *)
Lemma ease_within (lo hi cur tgt k : R) :
  lo <= cur <= hi -> lo <= tgt <= hi -> 0 <= k <= 1 ->
  lo <= cur + (tgt - cur) * k <= hi.
Proof. intros Hc Ht Hk. split; nra. Qed.

Lemma targetAzimuth_range (hx : R) :
  0 <= hx <= 1 -> - (3 / 2) * PI <= targetAzimuth hx <= 3 / 2 * PI.
Proof.
  intros Hx. unfold targetAzimuth. pose proof PI_RGT_0. split; nra.
Qed.

(** One wrap is enough when the raw difference lies within three half-turns. *)
Lemma azimuthDiff_wrapped (tgt cur : R) :
  - (3 * PI) <= tgt - cur <= 3 * PI ->
  - PI <= azimuthDiff tgt cur <= PI.
Proof.
  intros Hd. unfold azimuthDiff. pose proof PI_RGT_0.
  destruct (Rlt_dec PI (tgt - cur));
    match goal with |- context [Rlt_dec ?a ?b] => destruct (Rlt_dec a b) end;
    lra.
Qed.

Lemma runFrames_app (fs gs : list Frame) (ref : option Controls) :
  runFrames (fs ++ gs) ref = runFrames gs (runFrames fs ref).
Proof.
  revert ref. induction fs as [|f fs IH]; intros ref; simpl.
  - reflexivity.
  - apply IH.
Qed.

Lemma updateControls_inLimits (delta : R) (hand : HandPosition)
    (handScale : R) (c : Controls) :
  inLimits c -> 0 <= delta -> delta * lerpSpeed <= 1 ->
  inLimits (updateControls delta hand handScale c).
Proof.
  intros [Hp Hd] H0 H1. unfold lerpSpeed in H1.
  unfold inLimits, updateControls; simpl.
  unfold newPolar, newDistance, lerpSpeed, distanceLerpSpeed.
  split.
  - rewrite Rmult_assoc.
    apply ease_within; [exact Hp | apply targetPolar_bounds | lra].
  - rewrite Rmult_assoc.
    apply ease_within; [exact Hd | apply targetDistance_bounds | lra].
Qed.

Lemma runFrames_inLimits (frames : list Frame) (c0 : Controls) :
  inLimits c0 ->
  Forall (fun f => 0 <= frameDelta f /\ frameDelta f * lerpSpeed <= 1) frames ->
  exists c, runFrames frames (Some c0) = Some c /\ inLimits c.
Proof.
  revert c0. induction frames as [|f frames IH]; intros c0 Hc Hall.
  - exists c0. split; [reflexivity | exact Hc].
  - inversion Hall as [|? ? [H0 H1] Hrest]; subst. simpl.
    destruct (detected (frameHand f)).
    + apply IH; [| exact Hrest].
      apply updateControls_inLimits; assumption.
    + apply IH; assumption.
Qed.

(** *** The freeze policy *)

(** C1. A frame whose gesture sample has [detected = false] leaves the
    whole pose (azimuth, polar angle, distance, camera position and
    look-at target) exactly as the previous frame left it, whatever the
    sample's [x] and [y], the frame time and the hand scale are. *)
Theorem freeze_when_not_detected
    (frames : list Frame) (f : Frame) (controlsRef : option Controls) :
  detected (frameHand f) = false ->
  runFrames (frames ++ [f]) controlsRef = runFrames frames controlsRef.
Proof.
  intros Hnd. rewrite runFrames_app. simpl.
  unfold useFrame. rewrite Hnd.
  destruct (runFrames frames controlsRef); reflexivity.
Qed.

Lemma freeze_when_not_detected_witness :
  let c := mkControls 0 (PI / 3) 20 (sphericalPosition 20 (PI / 3) 0)
                      (mkVector3 0 targetY 0) in
  let seen := mkFrame (1 / 60) (mkHand 0.7 0.4 true) 1 in
  let lost := mkFrame (1 / 60) (mkHand 0.9 0.1 false) 2 in
  detected (frameHand lost) = false
  /\ runFrames ([seen] ++ [lost]) (Some c) = runFrames [seen] (Some c).
Proof.
  split; [reflexivity |].
  apply (freeze_when_not_detected
           [mkFrame (1 / 60) (mkHand 0.7 0.4 true) 1]
           (mkFrame (1 / 60) (mkHand 0.9 0.1 false) 2)).
  reflexivity.
Defined.

(** *** Clamping of the inputs *)

(** C2, as the code has it. For every hand position and hand scale the
    update clamps the hand scale to [0.3, 2.5] and the remapped [y] to
    [0, 1] before use: the pose written by a detected frame is eased
    toward the polar angle and the distance computed from the clamped
    values, and it is the same pose for any other sample with the same
    [x] and the same clamped values. [x] is used as it comes: the
    target azimuth is [(x - 0.5) * PI * 3], strictly increasing over all
    reals. The update always yields a pose. *)
Theorem inputs_clamped_except_x
    (delta : R) (hand : HandPosition) (handScale : R) (c : Controls) :
  let ys := Rmax 0 (Rmin 1 ((y hand - 0.2) * 2.0)) in
  let ss := Rmax 0.3 (Rmin 2.5 handScale) in
  0.3 <= ss <= 2.5
  /\ 0 <= ys <= 1
  /\ minPolar <= targetPolar (y hand) <= maxPolar
  /\ minDistance <= targetDistance handScale <= maxDistance
  /\ (forall x1 x2, x1 < x2 -> targetAzimuth x1 < targetAzimuth x2)
  /\ (exists c', useFrame delta hand handScale (Some c) = Some c')
  /\ (detected hand = true ->
      exists c',
        useFrame delta hand handScale (Some c) = Some c'
        /\ polarAngle c'
           = polarAngle c
             + (PI / 4 + ys * (PI / 1.8 - PI / 4) - polarAngle c) * delta * 8
        /\ distance c'
           = distance c
             + (30 - (ss - 0.3) / (2.5 - 0.3) * (30 - 8) - distance c)
               * delta * 5
        /\ azimuthalAngle c'
           = azimuthalAngle c
             + azimuthDiff ((x hand - 0.5) * PI * 3) (azimuthalAngle c)
               * delta * 8
        /\ position c'
           = sphericalPosition (distance c') (polarAngle c')
                               (azimuthalAngle c')
        /\ forall hand2 scale2,
             detected hand2 = true ->
             x hand2 = x hand ->
             Rmax 0 (Rmin 1 ((y hand2 - 0.2) * 2.0)) = ys ->
             Rmax 0.3 (Rmin 2.5 scale2) = ss ->
             useFrame delta hand2 scale2 (Some c) = Some c').
Proof.
  intros ys ss.
  split; [apply normalizedScale_bounds |].
  split; [apply clampedY_bounds |].
  split; [apply targetPolar_bounds |].
  split; [apply targetDistance_bounds |].
  split.
  { intros x1 x2 Hlt. unfold targetAzimuth. pose proof PI_RGT_0. nra. }
  split.
  { unfold useFrame. destruct (detected hand); eexists; reflexivity. }
  intros Hdet.
  exists (updateControls delta hand handScale c).
  split; [unfold useFrame; rewrite Hdet; reflexivity |].
  split; [reflexivity |]. split; [reflexivity |].
  split; [reflexivity |]. split; [reflexivity |].
  intros hand2 scale2 Hdet2 Hx Hy Hs.
  unfold useFrame. rewrite Hdet2. f_equal.
  unfold updateControls, newAzimuth, newPolar, newDistance, targetPolar,
    targetDistance, clampedY, adjustedY, normalizedScale.
  rewrite Hx, Hy, Hs. reflexivity.
Qed.

Lemma inputs_clamped_except_x_witness :
  let c := mkControls 0 (PI / 3) 20 (sphericalPosition 20 (PI / 3) 0)
                      (mkVector3 0 targetY 0) in
  useFrame (1 / 60) (mkHand 2 0.7 true) 2.5 (Some c)
  = useFrame (1 / 60) (mkHand 2 5 true) 9 (Some c).
Proof.
  intros c.
  destruct (inputs_clamped_except_x (1 / 60) (mkHand 2 5 true) 9 c)
    as [_ [_ [_ [_ [_ [_ Hdet]]]]]].
  destruct (Hdet eq_refl) as [c' [Hrun [_ [_ [_ [_ Hsame]]]]]].
  rewrite Hrun. apply Hsame; cbn [x y detected]; try reflexivity.
  - unfold Rmax, Rmin.
    destruct (Rle_dec 1 ((0.7 - 0.2) * 2.0));
      destruct (Rle_dec 1 ((5 - 0.2) * 2.0));
      repeat match goal with
             | |- context [Rle_dec ?a ?b] => destruct (Rle_dec a b)
             end; lra.
  - unfold Rmax, Rmin.
    destruct (Rle_dec 2.5 2.5); destruct (Rle_dec 2.5 9);
      repeat match goal with
             | |- context [Rle_dec ?a ?b] => destruct (Rle_dec a b)
             end; lra.
Defined.

(** C2, refuted as stated: [x] is not clamped. At [x = 2] the target
    azimuth leaves the range that [x] in [0, 1] can reach, and the frame
    started from azimuth 0 with [delta * 8 = 1] ends at another azimuth
    than the frame given the clamped value [x = 1]. *)
Lemma x_is_not_clamped :
  3 / 2 * PI < targetAzimuth 2
  /\ targetAzimuth 2 <> targetAzimuth (Rmax 0 (Rmin 1 2))
  /\ newAzimuth 2 0 (1 / 8) = 5 / 2 * PI
  /\ newAzimuth (Rmax 0 (Rmin 1 2)) 0 (1 / 8) = - (1 / 2) * PI.
Proof.
  pose proof PI_RGT_0 as Hpi.
  assert (Hc : Rmax 0 (Rmin 1 2) = 1).
  { unfold Rmax, Rmin. destruct (Rle_dec 1 2); [| lra].
    destruct (Rle_dec 0 1); lra. }
  rewrite Hc. unfold newAzimuth, azimuthDiff, targetAzimuth, lerpSpeed.
  repeat split; try lra.
  - destruct (Rlt_dec PI ((2 - 0.5) * PI * 3 - 0)); [| lra].
    destruct (Rlt_dec ((2 - 0.5) * PI * 3 - 0 - PI * 2) (- PI)); lra.
  - destruct (Rlt_dec PI ((1 - 0.5) * PI * 3 - 0)); [| lra].
    destruct (Rlt_dec ((1 - 0.5) * PI * 3 - 0 - PI * 2) (- PI)); lra.
Qed.

(** *** Azimuth wrapping *)

(** C3. The current azimuth is the one the controls report, which
    lies in [-PI, PI]; the target comes from [x] in [0, 1]. Then the
    single wrap of lines 59-60 gives a difference of magnitude at most
    [PI], and with [0 <= delta] and [delta * 8 <= 1] the applied change is
    at most [PI] in magnitude. For the current azimuth 3 the target -3 is
    [x = 0.5 - 1 / PI]; the wrapped difference is [2 * PI - 6], between
    0.283 and 0.284, not -6. *)
Theorem azimuth_change_bounded (hx currentAzimuth delta : R) :
  0 <= hx <= 1 ->
  - PI <= currentAzimuth <= PI ->
  0 <= delta -> delta * lerpSpeed <= 1 ->
  Rabs (azimuthDiff (targetAzimuth hx) currentAzimuth) <= PI
  /\ Rabs (newAzimuth hx currentAzimuth delta - currentAzimuth) <= PI
  /\ azimuthDiff (-3) 3 = 2 * PI - 6
  /\ 0.283 < azimuthDiff (-3) 3 < 0.284.
Proof.
  intros Hx Hc H0 H1.
  pose proof PI_RGT_0 as Hpi.
  pose proof (targetAzimuth_range hx Hx) as Ht.
  assert (Hw : - PI <= azimuthDiff (targetAzimuth hx) currentAzimuth <= PI).
  { apply azimuthDiff_wrapped. lra. }
  split; [apply Rabs_le; lra |].
  split.
  - unfold newAzimuth.
    replace (currentAzimuth
             + azimuthDiff (targetAzimuth hx) currentAzimuth * delta * lerpSpeed
             - currentAzimuth)
      with (azimuthDiff (targetAzimuth hx) currentAzimuth * (delta * lerpSpeed))
      by ring.
    unfold lerpSpeed in *. apply Rabs_le. split; nra.
  - pose proof PI_bounds as Hb.
    assert (He : azimuthDiff (-3) 3 = 2 * PI - 6).
    { unfold azimuthDiff.
      destruct (Rlt_dec PI (-3 - 3)); [lra |].
      destruct (Rlt_dec (-3 - 3) (- PI)); lra. }
    rewrite He. lra.
Qed.

Lemma azimuth_change_bounded_witness :
  0 <= 0.5 - 1 / PI <= 1
  /\ targetAzimuth (0.5 - 1 / PI) = -3
  /\ Rabs (newAzimuth (0.5 - 1 / PI) 3 (1 / 8) - 3) <= PI.
Proof.
  pose proof PI_bounds as Hb.
  assert (Hinv : 0 < 1 / PI < 0.5).
  { split.
    - apply Rdiv_lt_0_compat; lra.
    - apply Rmult_lt_reg_r with PI; [lra |].
      unfold Rdiv. rewrite Rmult_assoc, Rinv_l by lra. lra. }
  split; [lra |].
  split.
  - unfold targetAzimuth. field. lra.
  - apply (azimuth_change_bounded (0.5 - 1 / PI) 3 (1 / 8));
      unfold lerpSpeed; lra.
Defined.

(** *** Monotone coupling of distance with the hand scale *)

Lemma targetDistance_antitone (s1 s2 : R) :
  s1 <= s2 -> targetDistance s2 <= targetDistance s1.
Proof.
  intros Hs. unfold targetDistance, normalizedScale, minDistance, maxDistance.
  pose proof (clamp_monotone 0.3 2.5 s1 s2 ltac:(lra) Hs). lra.
Qed.

End ExperienceProps.

(** ** Properties of the placement generator and of the item easing *)

Module PolaroidsProps.
Import Polaroids.

(** *** The loop *)

Lemma loopBody_rng (photos : list string) (count i : nat) (g : Rng) :
  snd (loopBody photos count i g) = mkRng (draws g) (consumed g + 3).
Proof.
  unfold loopBody, Math_random; simpl.
  f_equal. lia.
Qed.

Lemma forLoop_step (photos : list string) (count r i : nat) (g : Rng)
    (data : list PhotoData) :
  forLoop photos count (S r) i g data
  = forLoop photos count r (S i) (mkRng (draws g) (consumed g + 3))
            (data ++ [fst (loopBody photos count i g)]).
Proof.
  cbn [forLoop].
  rewrite (surjective_pairing (loopBody photos count i g)).
  rewrite loopBody_rng. reflexivity.
Qed.

Lemma forLoop_length (photos : list string) (count remaining : nat) :
  forall i g data,
    List.length (fst (forLoop photos count remaining i g data))
    = (List.length data + remaining)%nat.
Proof.
  induction remaining as [|r IH]; intros i g data.
  - simpl. lia.
  - rewrite forLoop_step, IH, length_app. simpl. lia.
Qed.

(** Records already pushed are never touched again. *)
Lemma forLoop_keeps (photos : list string) (count remaining : nat) :
  forall i g data k,
    (k < List.length data)%nat ->
    nth_error (fst (forLoop photos count remaining i g data)) k
    = nth_error data k.
Proof.
  induction remaining as [|r IH]; intros i g data k Hk.
  - reflexivity.
  - rewrite forLoop_step, IH by (rewrite length_app; simpl; lia).
    apply nth_error_app1. exact Hk.
Qed.

Lemma forLoop_nth (photos : list string) (count remaining : nat) :
  forall i g data k,
    List.length data = i ->
    (i <= k < i + remaining)%nat ->
    nth_error (fst (forLoop photos count remaining i g data)) k
    = Some (fst (loopBody photos count k
                          (mkRng (draws g) (consumed g + 3 * (k - i))))).
Proof.
  induction remaining as [|r IH]; intros i g data k Hlen Hk.
  - lia.
  - rewrite forLoop_step.
    destruct (Nat.eq_dec k i) as [-> | Hne].
    + rewrite forLoop_keeps by (rewrite length_app; simpl; lia).
      rewrite nth_error_app2 by lia.
      rewrite Hlen, Nat.sub_diag. cbn [nth_error].
      replace (consumed g + 3 * 0)%nat with (consumed g) by lia.
      destruct g as [dr n]. reflexivity.
    + rewrite (IH (S i) _ (data ++ [fst (loopBody photos count i g)]) k).
      * cbn [draws consumed].
        replace (consumed g + 3 + 3 * (k - S i))%nat
          with (consumed g + 3 * (k - i))%nat by lia.
        reflexivity.
      * rewrite length_app. simpl. lia.
      * lia.
Qed.

Lemma photoData_length (photos : list string) (g : Rng) :
  List.length (fst (photoData photos g)) = List.length photos.
Proof.
  unfold photoData.
  destruct (List.length photos =? 0)%nat eqn:He.
  - apply Nat.eqb_eq in He. rewrite He. reflexivity.
  - rewrite forLoop_length. reflexivity.
Qed.

(** The record at index [k] is the one pushed by iteration [k], which
    sees the random state after [3 * k] draws. *)
Lemma photoData_nth (photos : list string) (g : Rng) (k : nat) :
  (k < List.length photos)%nat ->
  nth_error (fst (photoData photos g)) k
  = Some (fst (loopBody photos (List.length photos) k
                        (mkRng (draws g) (consumed g + 3 * k)))).
Proof.
  intros Hk. unfold photoData.
  destruct (List.length photos =? 0)%nat eqn:He.
  - apply Nat.eqb_eq in He. lia.
  - rewrite (forLoop_nth photos _ _ 0%nat g [] k) by (simpl; lia).
    rewrite Nat.sub_0_r. reflexivity.
Qed.

Lemma photoData_record (photos : list string) (g : Rng) (k : nat) :
  (k < List.length photos)%nat ->
  exists d,
    nth_error (fst (photoData photos g)) k = Some d
    /\ id d = k
    /\ url d = nth_error photos k
    /\ targetPos d = formedPosition k (List.length photos)
    /\ chaosPos d
       = chaosPosition k (List.length photos)
           (3 + draws g (consumed g + 3 * k) * 4)
           ((draws g (S (consumed g + 3 * k)) - 0.5) * 8)
    /\ speed d = 0.8 + draws g (S (S (consumed g + 3 * k))) * 1.5.
Proof.
  intros Hk. eexists. split; [apply photoData_nth; exact Hk |].
  unfold loopBody, Math_random; simpl. auto 6.
Qed.

(** *** The generator's contract *)

(** C6. For every list of photos the generator returns exactly as many
    records as there are photos, and every record is complete: its [id]
    is an index of the input, its [url] is the photo at that index, its
    formed position is the one of that index, and its chaos position and
    speed are the ones computed from three random draws. For no photos
    the generator returns the empty list. It never fails. *)
Theorem generator_count (photos : list string) (g : Rng) :
  List.length (fst (photoData photos g)) = List.length photos
  /\ Forall (fun d =>
               exists u r1 r2 r3,
                 nth_error photos (id d) = Some u
                 /\ url d = Some u
                 /\ targetPos d = formedPosition (id d) (List.length photos)
                 /\ chaosPos d
                    = chaosPosition (id d) (List.length photos)
                        (3 + r1 * 4) ((r2 - 0.5) * 8)
                 /\ speed d = 0.8 + r3 * 1.5)
            (fst (photoData photos g))
  /\ fst (photoData [] g) = [].
Proof.
  split; [apply photoData_length |].
  split; [| reflexivity].
  apply Forall_forall. intros d Hin.
  destruct (In_nth_error _ _ Hin) as [k Hk].
  assert (Hlt : (k < List.length photos)%nat).
  { rewrite <- (photoData_length photos g).
    apply nth_error_Some. congruence. }
  destruct (photoData_record photos g k Hlt)
    as [d' [Hd' [Hid [Hurl [Htp [Hcp Hsp]]]]]].
  assert (d' = d) by congruence. subst d'.
  destruct (nth_error photos k) as [u|] eqn:Hu.
  - exists u. do 3 eexists. rewrite Hid.
    split; [exact Hu |]. split; [exact Hurl |]. split; [exact Htp |].
    split; [exact Hcp | exact Hsp].
  - apply nth_error_None in Hu. lia.
Qed.

(** C10. The record at index [i] has [id = i] and the [i]-th photo of
    the input as its [url]. *)
Theorem order_preserved (photos : list string) (g : Rng) (i : nat)
    (u : string) :
  nth_error photos i = Some u ->
  exists d,
    nth_error (fst (photoData photos g)) i = Some d
    /\ id d = i
    /\ url d = Some u.
Proof.
  intros Hu.
  assert (Hlt : (i < List.length photos)%nat).
  { apply nth_error_Some. congruence. }
  destruct (photoData_record photos g i Hlt) as [d [Hd [Hid [Hurl _]]]].
  exists d. repeat split; congruence.
Qed.

Lemma order_preserved_witness :
  let photos := ["/photos/1.jpg"; "/photos/2.jpg"; "/photos/3.jpg"]%string in
  let g := mkRng (fun _ => 0.5) 0 in
  nth_error photos 1 = Some "/photos/2.jpg"%string
  /\ exists d,
       nth_error (fst (photoData photos g)) 1 = Some d
       /\ id d = 1%nat
       /\ url d = Some "/photos/2.jpg"%string.
Proof.
  split; [reflexivity |].
  apply (order_preserved
           ["/photos/1.jpg"; "/photos/2.jpg"; "/photos/3.jpg"]%string
           (mkRng (fun _ => 0.5) 0) 1 "/photos/2.jpg"%string).
  reflexivity.
Defined.

(** *** Formed positions *)

(** C5. For at least one photo and every index [i] below the count, the
    record at index [i] has the formed position
    [(r * cos theta, h * 9, r * sin theta)] with
    [h = 0.2 + (i / count) * 0.6], [r = 5 * (1 - h) + 0.8] and
    [theta = i * 2.39996]; for a single photo this is [h = 0.2],
    [r = 5 * 0.8 + 0.8], [theta = 0] and the position [(4.8, 1.8, 0)]. *)
Theorem formed_placement_formula (photos : list string) (g : Rng) (i : nat) :
  (1 <= List.length photos)%nat ->
  (i < List.length photos)%nat ->
  let count := List.length photos in
  let h := 0.2 + (INR i / INR count) * 0.6 in
  let r := 5 * (1 - h) + 0.8 in
  let th := INR i * 2.39996 in
  exists d,
    nth_error (fst (photoData photos g)) i = Some d
    /\ targetPos d = mkVector3 (r * cos th) (h * 9) (r * sin th)
    /\ (count = 1%nat ->
        h = 0.2 /\ r = 5 * 0.8 + 0.8 /\ th = 0
        /\ targetPos d = mkVector3 4.8 1.8 0).
Proof.
  intros Hpos Hlt count h r th.
  destruct (photoData_record photos g i Hlt) as [d [Hd [_ [_ [Htp _]]]]].
  exists d. split; [exact Hd |].
  assert (Hform : targetPos d = mkVector3 (r * cos th) (h * 9) (r * sin th)).
  { rewrite Htp. unfold formedPosition, radius, yNorm, theta, height, maxRadius.
    subst h r th count. f_equal; lra. }
  split; [exact Hform |].
  intros Hone.
  assert (Hi : i = 0%nat) by (subst count; lia).
  assert (Hh : h = 0.2).
  { subst h. rewrite Hone, Hi. simpl. lra. }
  assert (Hr : r = 5 * 0.8 + 0.8) by (subst r; rewrite Hh; lra).
  assert (Hth : th = 0) by (subst th; rewrite Hi; simpl; lra).
  repeat split; try assumption.
  rewrite Hform, Hth, Hh, Hr, cos_0, sin_0. f_equal; lra.
Qed.

Lemma formed_placement_formula_witness :
  (1 <= List.length ["/photos/1.jpg"%string])%nat
  /\ (0 < List.length ["/photos/1.jpg"%string])%nat
  /\ exists d,
       nth_error (fst (photoData ["/photos/1.jpg"%string]
                                 (mkRng (fun _ => 0.5) 0))) 0 = Some d
       /\ targetPos d = mkVector3 4.8 1.8 0.
Proof.
  split; [simpl; lia |]. split; [simpl; lia |].
  destruct (formed_placement_formula ["/photos/1.jpg"%string]
              (mkRng (fun _ => 0.5) 0) 0)
    as [d [Hd [_ Hone]]]; [simpl; lia | simpl; lia |].
  exists d. split; [exact Hd |].
  apply Hone. reflexivity.
Defined.

Lemma yNorm_injective (i j count : nat) :
  (0 < count)%nat -> yNorm i count = yNorm j count -> i = j.
Proof.
  intros Hc He. unfold yNorm in He.
  assert (Hcount : 0 < INR count) by (apply lt_0_INR; exact Hc).
  assert (Hq : INR i / INR count = INR j / INR count) by lra.
  apply INR_eq.
  apply Rmult_eq_reg_r with (/ INR count).
  - exact Hq.
  - apply Rinv_neq_0_compat. lra.
Qed.

(** C7. Two records at distinct indices have distinct formed positions,
    and distinct [(r, theta)] pairs. *)
Theorem formed_positions_unique (photos : list string) (g : Rng)
    (i j : nat) (di dj : PhotoData) :
  i <> j ->
  nth_error (fst (photoData photos g)) i = Some di ->
  nth_error (fst (photoData photos g)) j = Some dj ->
  targetPos di <> targetPos dj
  /\ (radius i (List.length photos), theta i)
     <> (radius j (List.length photos), theta j).
Proof.
  intros Hne Hi Hj.
  assert (Hli : (i < List.length photos)%nat).
  { rewrite <- (photoData_length photos g). apply nth_error_Some. congruence. }
  assert (Hlj : (j < List.length photos)%nat).
  { rewrite <- (photoData_length photos g). apply nth_error_Some. congruence. }
  destruct (photoData_record photos g i Hli) as [di' [Hdi [_ [_ [Hti _]]]]].
  destruct (photoData_record photos g j Hlj) as [dj' [Hdj [_ [_ [Htj _]]]]].
  assert (di' = di) by congruence. assert (dj' = dj) by congruence.
  subst di' dj'.
  split.
  - rewrite Hti, Htj. intros He.
    apply (f_equal vy) in He. unfold formedPosition, height in He. simpl in He.
    apply Hne, (yNorm_injective i j (List.length photos)); [lia | lra].
  - intros He. apply (f_equal fst) in He. simpl in He. unfold radius in He.
    apply Hne, (yNorm_injective i j (List.length photos)); [lia |].
    unfold maxRadius in He. lra.
Qed.

Lemma formed_positions_unique_witness :
  let photos := ["/photos/1.jpg"; "/photos/2.jpg"]%string in
  let g := mkRng (fun _ => 0.5) 0 in
  exists di dj,
    nth_error (fst (photoData photos g)) 0 = Some di
    /\ nth_error (fst (photoData photos g)) 1 = Some dj
    /\ targetPos di <> targetPos dj.
Proof.
  intros photos g.
  destruct (photoData_record photos g 0) as [di [Hdi _]]; [simpl; lia |].
  destruct (photoData_record photos g 1) as [dj [Hdj _]]; [simpl; lia |].
  exists di, dj. split; [exact Hdi |]. split; [exact Hdj |].
  apply (formed_positions_unique photos g 0 1 di dj);
    [discriminate | exact Hdi | exact Hdj].
Defined.

(** *** Position easing *)

(** One eased step multiplies the distance to the target by
    [|1 - alpha|]. *)
Lemma lerp_distance (p t : Vector3) (alpha : R) :
  Vector3_distanceTo (Vector3_lerp p t alpha) t
  = Rabs (1 - alpha) * Vector3_distanceTo p t.
Proof.
  unfold Vector3_distanceTo, Vector3_lerp. cbn [vx vy vz].
  set (sq := (vx p - vx t) * (vx p - vx t)
            + (vy p - vy t) * (vy p - vy t)
            + (vz p - vz t) * (vz p - vz t)).
  replace ((vx p + (vx t - vx p) * alpha - vx t)
           * (vx p + (vx t - vx p) * alpha - vx t)
           + (vy p + (vy t - vy p) * alpha - vy t)
             * (vy p + (vy t - vy p) * alpha - vy t)
           + (vz p + (vz t - vz p) * alpha - vz t)
             * (vz p + (vz t - vz p) * alpha - vz t))
    with (Rsqr (1 - alpha) * sq) by (unfold sq, Rsqr; ring).
  rewrite sqrt_mult.
  - rewrite sqrt_Rsqr_abs. reflexivity.
  - apply Rle_0_sqr.
  - unfold sq.
    pose proof (Rle_0_sqr (vx p - vx t)) as Hx.
    pose proof (Rle_0_sqr (vy p - vy t)) as Hy.
    pose proof (Rle_0_sqr (vz p - vz t)) as Hz.
    unfold Rsqr in Hx, Hy, Hz. lra.
Qed.

Lemma distance_nonneg (p q : Vector3) : 0 <= Vector3_distanceTo p q.
Proof. unfold Vector3_distanceTo. apply sqrt_pos. Qed.

(** After [n] frames the item is mounted and its distance to the target is
    the initial one times the product of the per-frame factors. *)
Lemma runFrames_distance (mode : TreeMode) (data : PhotoData)
    (scales deltas : nat -> R) (group : Group) (c : R) :
  (forall k, Rabs (1 - deltas k * speed data) <= c) ->
  forall n, exists g',
    runFrames mode data scales deltas n (Some group) = Some g'
    /\ Vector3_distanceTo (position g') (selectTarget mode data)
       <= c ^ n * Vector3_distanceTo (position group) (selectTarget mode data).
Proof.
  intros Hc n. induction n as [|n [g' [Hrun Hd]]].
  - exists group. split; [reflexivity | simpl; lra].
  - cbn [runFrames]. rewrite Hrun. cbn [useFrame].
    eexists. split; [reflexivity |].
    cbn [position]. rewrite lerp_distance.
    pose proof (Hc n) as Hn.
    pose proof (Rabs_pos (1 - deltas n * speed data)) as Ha.
    pose proof (distance_nonneg (position g') (selectTarget mode data)) as Hg.
    simpl pow. rewrite Rmult_assoc.
    apply Rmult_le_compat; lra.
Qed.

(** C8, as the code has it. With the mode fixed, if every frame's step
    [delta * speed] satisfies [|1 - delta * speed| <= c] for one [c < 1]
    (for instance a constant frame time with [0 < delta * speed < 2]),
    then for every item, every [eps > 0] and every initial position, from
    some frame on the rendered position is within [eps] of the target
    selected by the mode. *)
Theorem position_converges (mode : TreeMode) (data : PhotoData)
    (scales deltas : nat -> R) (group : Group) (c eps : R) :
  0 <= c < 1 ->
  (forall k, Rabs (1 - deltas k * speed data) <= c) ->
  0 < eps ->
  exists N, forall n, (N <= n)%nat ->
    exists g',
      runFrames mode data scales deltas n (Some group) = Some g'
      /\ Vector3_distanceTo (position g') (selectTarget mode data) < eps.
Proof.
  intros Hc Hstep Heps.
  set (D := Vector3_distanceTo (position group) (selectTarget mode data)).
  assert (HD : 0 <= D) by apply distance_nonneg.
  assert (Hq : 0 < eps / (D + 1)) by (apply Rdiv_lt_0_compat; lra).
  destruct (pow_lt_1_zero c) with (y := eps / (D + 1)) as [N HN];
    [rewrite Rabs_pos_eq; lra | exact Hq |].
  exists N. intros n Hn.
  destruct (runFrames_distance mode data scales deltas group c Hstep n)
    as [g' [Hrun Hd]].
  exists g'. split; [exact Hrun |].
  fold D in Hd.
  specialize (HN n ltac:(lia)).
  assert (Hpow : 0 <= c ^ n) by (apply pow_le; lra).
  rewrite Rabs_pos_eq in HN by exact Hpow.
  assert (Hlt : c ^ n * (D + 1) < eps).
  { apply Rmult_lt_reg_r with (/ (D + 1)).
    - apply Rinv_0_lt_compat. lra.
    - rewrite Rmult_assoc, Rinv_r by lra. unfold Rdiv in HN. lra. }
  nra.
Qed.

Lemma position_converges_witness :
  let data := mkPhotoData 0 (Some "/photos/1.jpg"%string)
                          (mkVector3 3.6 5 16) (mkVector3 4.8 1.8 0) 1.5 in
  0 <= 0.975 < 1
  /\ (forall k : nat, Rabs (1 - 1 / 60 * speed data) <= 0.975)
  /\ exists N, forall n, (N <= n)%nat ->
       exists g',
         runFrames FORMED data (fun _ => 1) (fun _ => 1 / 60) n
                   (Some (mkGroup (mkVector3 0 0 0) 1)) = Some g'
         /\ Vector3_distanceTo (position g') (selectTarget FORMED data) < 1.
Proof.
  intros data.
  assert (Hstep : forall k : nat, Rabs (1 - 1 / 60 * speed data) <= 0.975).
  { intros _. unfold data. cbn [speed]. rewrite Rabs_pos_eq; lra. }
  split; [lra |]. split; [exact Hstep |].
  apply (position_converges FORMED data (fun _ => 1) (fun _ => 1 / 60)
           (mkGroup (mkVector3 0 0 0) 1) 0.975 1);
    [lra | exact Hstep | lra].
Defined.

(** C8, refuted as stated: without a bound on the frame time the
    position need not converge. With frame time 1 and speed 2 the step is
    2, each frame mirrors the position through the target, and the item
    started at the origin stays at its initial distance (more than 1) from
    the formed position [(4.8, 1.8, 0)] for ever. *)
Lemma easing_can_oscillate :
  let data := mkPhotoData 0 (Some "/photos/1.jpg"%string)
                          (mkVector3 3.6 5 16) (mkVector3 4.8 1.8 0) 2 in
  let start := mkGroup (mkVector3 0 0 0) 1 in
  ~ (forall eps, 0 < eps ->
       exists N, forall n, (N <= n)%nat ->
         exists g',
           runFrames FORMED data (fun _ => 1) (fun _ => 1) n (Some start)
           = Some g'
           /\ Vector3_distanceTo (position g') (selectTarget FORMED data)
              < eps).
Proof.
  intros data start Hconv.
  assert (Hfar : forall n, exists g',
             runFrames FORMED data (fun _ => 1) (fun _ => 1) n (Some start)
             = Some g'
             /\ Vector3_distanceTo (position g') (selectTarget FORMED data)
                = Vector3_distanceTo (position start)
                                     (selectTarget FORMED data)).
  { induction n as [|n [g' [Hrun Hd]]].
    - exists start. split; reflexivity.
    - cbn [runFrames]. rewrite Hrun. cbn [useFrame].
      eexists. split; [reflexivity |].
      cbn [position]. rewrite lerp_distance, Hd.
      unfold data at 1. cbn [speed].
      replace (1 - 1 * 2) with (- (1)) by ring.
      rewrite Rabs_Ropp, Rabs_R1. ring. }
  assert (Hone : 1 <= Vector3_distanceTo (position start)
                                         (selectTarget FORMED data)).
  { unfold Vector3_distanceTo, start, data. cbn.
    rewrite <- sqrt_1 at 1. apply sqrt_le_1_alt. lra. }
  destruct (Hconv 1 ltac:(lra)) as [N HN].
  destruct (HN N (Nat.le_refl N)) as [g' [Hrun Hlt]].
  destruct (Hfar N) as [g'' [Hrun' Heq]].
  assert (g'' = g') by congruence. subst g''.
  lra.
Qed.

End PolaroidsProps.

(** ** Properties that couple the camera and the placards *)

Module CouplingProps.
Import Experience.

Ltac case_clamps :=
  unfold Rmax, Rmin;
  repeat match goal with
         | |- context [Rle_dec ?a ?b] => destruct (Rle_dec a b)
         | H : context [Rle_dec ?a ?b] |- _ => destruct (Rle_dec a b)
         end;
  try lra.

Lemma photoScale_bounds (handScale : R) :
  0.8 <= Polaroids.photoScale handScale <= 2.0.
Proof.
  unfold Polaroids.photoScale, Polaroids.minPhotoScale,
    Polaroids.maxPhotoScale, Polaroids.normalizedScale.
  pose proof (ExperienceProps.clamp_bounds 0.3 2.5 handScale ltac:(lra)).
  lra.
Qed.

Lemma photoScale_monotone (s1 s2 : R) :
  s1 <= s2 -> Polaroids.photoScale s1 <= Polaroids.photoScale s2.
Proof.
  intros Hs.
  unfold Polaroids.photoScale, Polaroids.minPhotoScale,
    Polaroids.maxPhotoScale, Polaroids.normalizedScale.
  pose proof (ExperienceProps.clamp_monotone 0.3 2.5 s1 s2 ltac:(lra) Hs).
  lra.
Qed.

(** Every frame of a mounted item writes a scale within the bounds. *)
Lemma item_scale_bounds (mode : TreeMode) (data : Polaroids.PhotoData)
    (scales deltas : nat -> R) (n : nat) (group : Polaroids.Group) :
  exists g',
    Polaroids.runFrames mode data scales deltas (S n) (Some group) = Some g'
    /\ 0.8 <= Polaroids.scale g' <= 2.0.
Proof.
  assert (Hm : forall k, exists g,
             Polaroids.runFrames mode data scales deltas k (Some group)
             = Some g).
  { induction k as [|k [g Hg]].
    - exists group. reflexivity.
    - cbn [Polaroids.runFrames]. rewrite Hg. eexists. reflexivity. }
  destruct (Hm n) as [g Hg].
  cbn [Polaroids.runFrames]. rewrite Hg. cbn [Polaroids.useFrame].
  eexists. split; [reflexivity |].
  cbn [Polaroids.scale]. apply photoScale_bounds.
Qed.

(** C9. The target camera distance is non-increasing and the placard
    scale is non-decreasing in the hand scale. *)
Theorem inverse_monotone_coupling (s1 s2 : R) :
  s1 <= s2 ->
  targetDistance s1 >= targetDistance s2
  /\ Polaroids.photoScale s1 <= Polaroids.photoScale s2.
Proof.
  intros Hs. split.
  - apply Rle_ge. apply ExperienceProps.targetDistance_antitone. exact Hs.
  - apply photoScale_monotone. exact Hs.
Qed.

Lemma inverse_monotone_coupling_witness :
  0.5 <= 2
  /\ targetDistance 0.5 >= targetDistance 2
  /\ Polaroids.photoScale 0.5 <= Polaroids.photoScale 2.
Proof.
  split; [lra |].
  apply (inverse_monotone_coupling 0.5 2). lra.
Defined.

(** C4, as the code has it. From a pose within the limits, over every
    sequence of gesture samples and hand scales and every sequence of
    frame times with [0 <= delta] and [delta * 8 <= 1], the polar angle
    stays in [PI/4, PI/1.8] and the distance in [8, 30]; the placard
    scale written by any frame lies in [0.8, 2.0] whatever the frame
    times are. *)
Theorem bounds_invariant (frames : list Frame) (c0 : Controls)
    (mode : TreeMode) (data : Polaroids.PhotoData)
    (scales deltas : nat -> R) (n : nat) (group : Polaroids.Group) :
  inLimits c0 ->
  Forall (fun f => 0 <= frameDelta f /\ frameDelta f * lerpSpeed <= 1) frames ->
  (exists c,
      runFrames frames (Some c0) = Some c
      /\ PI / 4 <= polarAngle c <= PI / 1.8
      /\ 8 <= distance c <= 30)
  /\ (exists g',
         Polaroids.runFrames mode data scales deltas (S n) (Some group)
         = Some g'
         /\ 0.8 <= Polaroids.scale g' <= 2.0).
Proof.
  intros Hc Hall. split.
  - destruct (ExperienceProps.runFrames_inLimits frames c0 Hc Hall)
      as [c [Hrun [Hp Hd]]].
    exists c. split; [exact Hrun |]. split; [exact Hp | exact Hd].
  - apply item_scale_bounds.
Qed.

Lemma bounds_invariant_witness :
  let c0 := mkControls 0 (PI / 4) 30 (sphericalPosition 30 (PI / 4) 0)
                       (mkVector3 0 targetY 0) in
  let frames := [mkFrame (1 / 60) (mkHand 0.5 1 true) 2.5;
                 mkFrame (1 / 8) (mkHand 3 (-1) true) 9] in
  inLimits c0
  /\ exists c,
       runFrames frames (Some c0) = Some c
       /\ PI / 4 <= polarAngle c <= PI / 1.8
       /\ 8 <= distance c <= 30.
Proof.
  intros c0 frames.
  assert (Hc0 : inLimits c0).
  { unfold inLimits, c0, minPolar, maxPolar, minDistance, maxDistance.
    cbn [polarAngle distance]. pose proof PI_RGT_0. lra. }
  split; [exact Hc0 |].
  apply (bounds_invariant frames c0 FORMED
           (Polaroids.mkPhotoData 0 None (mkVector3 0 0 0) (mkVector3 0 0 0) 1)
           (fun _ => 1) (fun _ => 1) 0
           (Polaroids.mkGroup (mkVector3 0 0 0) 1)).
  - exact Hc0.
  - unfold frames, lerpSpeed.
    repeat constructor; cbn [frameDelta]; lra.
Defined.

(** C4, refuted as stated: a non-negative frame time alone does not keep
    the eased state within the limits. From the pose with polar angle
    [PI/4] and distance 30, a frame of a quarter of a second with
    [y = 1] and hand scale 2.5 eases past both targets: the polar angle
    becomes [2 * PI/1.8 - PI/4], above [PI/1.8], and the distance
    becomes 2.5, below 8. *)
Lemma long_frame_overshoots :
  let c0 := mkControls 0 (PI / 4) 30 (sphericalPosition 30 (PI / 4) 0)
                       (mkVector3 0 targetY 0) in
  let f := mkFrame (1 / 4) (mkHand 0.5 1 true) 2.5 in
  inLimits c0
  /\ 0 <= frameDelta f
  /\ exists c,
       runFrames [f] (Some c0) = Some c
       /\ polarAngle c = 2 * (PI / 1.8) - PI / 4
       /\ PI / 1.8 < polarAngle c
       /\ distance c = 2.5
       /\ ~ inLimits c.
Proof.
  intros c0 f. pose proof PI_RGT_0 as Hpi.
  split.
  { unfold inLimits, c0, minPolar, maxPolar, minDistance, maxDistance.
    cbn [polarAngle distance]. lra. }
  split; [cbn; lra |].
  assert (Hp : newPolar 1 (PI / 4) (1 / 4) = 2 * (PI / 1.8) - PI / 4).
  { unfold newPolar, targetPolar, clampedY, adjustedY, minPolar, maxPolar,
      lerpSpeed.
    replace (Rmax 0 (Rmin 1 ((1 - 0.2) * 2.0))) with 1 by case_clamps.
    lra. }
  assert (Hd : newDistance 2.5 30 (1 / 4) = 2.5).
  { unfold newDistance, targetDistance, normalizedScale, minDistance,
      maxDistance, distanceLerpSpeed.
    replace (Rmax 0.3 (Rmin 2.5 2.5)) with 2.5 by case_clamps.
    lra. }
  exists (updateControls (1 / 4) (mkHand 0.5 1 true) 2.5 c0).
  assert (Hpa : polarAngle (updateControls (1 / 4) (mkHand 0.5 1 true) 2.5 c0)
                = newPolar 1 (PI / 4) (1 / 4)) by reflexivity.
  assert (Hda : distance (updateControls (1 / 4) (mkHand 0.5 1 true) 2.5 c0)
                = newDistance 2.5 30 (1 / 4)) by reflexivity.
  split; [reflexivity |].
  unfold inLimits, minPolar, maxPolar, minDistance, maxDistance.
  rewrite Hpa, Hda, Hp, Hd.
  split; [reflexivity |]. split; [lra |]. split; [reflexivity |]. lra.
Qed.

End CouplingProps.

(** ** Further properties of the orbit camera controller *)

Module ExperienceExtra.
Import Experience.

Ltac split_clamps :=
  unfold Rmax, Rmin;
  repeat match goal with
         | |- context [Rle_dec ?a ?b] => destruct (Rle_dec a b)
         | H : context [Rle_dec ?a ?b] |- _ => destruct (Rle_dec a b)
         end.

Lemma sin_cos_unit (a : R) : sin a * sin a + cos a * cos a = 1.
Proof. pose proof (sin2_cos2 a) as H. unfold Rsqr in H. exact H. Qed.

Lemma sin_plus_turn (a : R) : sin (a + PI * 2) = sin a.
Proof.
  rewrite sin_plus. replace (PI * 2) with (2 * PI) by ring.
  rewrite sin_2PI, cos_2PI. ring.
Qed.

Lemma cos_plus_turn (a : R) : cos (a + PI * 2) = cos a.
Proof.
  rewrite cos_plus. replace (PI * 2) with (2 * PI) by ring.
  rewrite sin_2PI, cos_2PI. ring.
Qed.

Lemma sin_minus_turn (a : R) : sin (a - PI * 2) = sin a.
Proof.
  rewrite <- (sin_plus_turn (a - PI * 2)). f_equal. ring.
Qed.

Lemma cos_minus_turn (a : R) : cos (a - PI * 2) = cos a.
Proof.
  rewrite <- (cos_plus_turn (a - PI * 2)). f_equal. ring.
Qed.

(** The wrapped difference is the raw one, or the raw one moved by one
    full turn. *)
Lemma azimuthDiff_cases (tgt cur : R) :
  azimuthDiff tgt cur = tgt - cur
  \/ azimuthDiff tgt cur = tgt - cur - PI * 2
  \/ azimuthDiff tgt cur = tgt - cur + PI * 2.
Proof.
  unfold azimuthDiff. pose proof PI_RGT_0.
  destruct (Rlt_dec PI (tgt - cur));
    match goal with |- context [Rlt_dec ?a ?b] => destruct (Rlt_dec a b) end;
    auto; lra.
Qed.

(** X1. Every pose written by the update is consistent: the look-at
    target is the focal point (0, 4, 0), the camera position is the
    spherical reconstruction of the three eased coordinates, and the
    camera sits at a distance from the target equal to the magnitude of
    the eased distance, whatever the inputs are. *)
Theorem camera_on_sphere (delta : R) (hand : HandPosition) (handScale : R)
    (c : Controls) :
  let c' := updateControls delta hand handScale c in
  target c' = mkVector3 0 4 0
  /\ position c'
     = sphericalPosition (distance c') (polarAngle c') (azimuthalAngle c')
  /\ Vector3_distanceTo (position c') (target c') = Rabs (distance c').
Proof.
  intros c'. split; [reflexivity |]. split; [reflexivity |].
  unfold c', updateControls. cbn [position target distance].
  set (d := newDistance handScale (distance c) delta).
  set (p := newPolar (y hand) (polarAngle c) delta).
  set (a := newAzimuth (x hand) (azimuthalAngle c) delta).
  unfold Vector3_distanceTo, sphericalPosition, targetY. cbn [vx vy vz].
  pose proof (sin_cos_unit p) as Hp. pose proof (sin_cos_unit a) as Ha.
  replace ((d * sin p * sin a - 0) * (d * sin p * sin a - 0)
           + (4 + d * cos p - 4) * (4 + d * cos p - 4)
           + (d * sin p * cos a - 0) * (d * sin p * cos a - 0))
    with (Rsqr d).
  - apply sqrt_Rsqr_abs.
  - unfold Rsqr.
    transitivity (d * d * (sin p * sin p * (sin a * sin a + cos a * cos a)
                           + cos p * cos p)); [| ring].
    rewrite Ha, Rmult_1_r, Hp. ring.
Qed.

(** X2. The target polar angle is non-decreasing in the hand's [y], and
    saturates: it is [PI/4] for every [y <= 0.2], [PI/1.8] for every
    [y >= 0.7], and affine in between. *)
Theorem polar_response (y1 y2 : R) :
  y1 <= y2 ->
  targetPolar y1 <= targetPolar y2
  /\ (y2 <= 0.2 -> targetPolar y1 = PI / 4 /\ targetPolar y2 = PI / 4)
  /\ (0.7 <= y1 -> targetPolar y1 = PI / 1.8 /\ targetPolar y2 = PI / 1.8)
  /\ (0.2 <= y1 -> y2 <= 0.7 ->
      targetPolar y2 - targetPolar y1
      = (y2 - y1) * 2 * (PI / 1.8 - PI / 4)).
Proof.
  intros Hy. pose proof PI_RGT_0 as Hpi.
  unfold targetPolar, clampedY, adjustedY, minPolar, maxPolar.
  split_clamps; repeat split; intros; try nra.
Qed.

Lemma polar_response_witness :
  0.1 <= 0.15
  /\ targetPolar 0.1 <= targetPolar 0.15
  /\ targetPolar 0.1 = PI / 4.
Proof.
  split; [lra |].
  destruct (polar_response 0.1 0.15 ltac:(lra)) as [Hm [Hlow _]].
  split; [exact Hm |].
  apply Hlow. lra.
Defined.

(** X3. The target distance and the placard scale are two affine images
    of one clamped hand scale: [(targetDistance - 8) / 22] and
    [(photoScale - 0.8) / 1.2] always add up to 1. A hand scale of at most
    0.3 gives distance 30 and scale 0.8; one of at least 2.5 gives
    distance 8 and scale 2.0. *)
Theorem zoom_coupling (handScale : R) :
  (targetDistance handScale - 8) / 22
  + (Polaroids.photoScale handScale - 0.8) / 1.2 = 1
  /\ (handScale <= 0.3 ->
      targetDistance handScale = 30 /\ Polaroids.photoScale handScale = 0.8)
  /\ (2.5 <= handScale ->
      targetDistance handScale = 8 /\ Polaroids.photoScale handScale = 2.0).
Proof.
  unfold targetDistance, Polaroids.photoScale, normalizedScale,
    Polaroids.normalizedScale, maxDistance, minDistance,
    Polaroids.minPhotoScale, Polaroids.maxPhotoScale.
  split_clamps; repeat split; intros; try lra.
Qed.

Lemma zoom_coupling_witness :
  9 >= 2.5 /\ targetDistance 9 = 8 /\ Polaroids.photoScale 9 = 2.0.
Proof.
  split; [lra |].
  apply (proj2 (proj2 (zoom_coupling 9))). lra.
Defined.

(** X4. The wrap never changes the direction aimed at: the current
    azimuth plus the wrapped difference has the sine and cosine of the
    target azimuth. Hence a frame with [delta * 8 = 1] writes a camera
    azimuth pointing exactly in the target direction. *)
Theorem wrap_keeps_direction (hx currentAzimuth : R) :
  sin (currentAzimuth + azimuthDiff (targetAzimuth hx) currentAzimuth)
  = sin (targetAzimuth hx)
  /\ cos (currentAzimuth + azimuthDiff (targetAzimuth hx) currentAzimuth)
     = cos (targetAzimuth hx)
  /\ sin (newAzimuth hx currentAzimuth (1 / 8)) = sin (targetAzimuth hx)
  /\ cos (newAzimuth hx currentAzimuth (1 / 8)) = cos (targetAzimuth hx).
Proof.
  set (t := targetAzimuth hx).
  assert (Hrew : newAzimuth hx currentAzimuth (1 / 8)
                 = currentAzimuth + azimuthDiff t currentAzimuth).
  { unfold newAzimuth, lerpSpeed. fold t. field. }
  rewrite Hrew.
  assert (Hs : sin (currentAzimuth + azimuthDiff t currentAzimuth) = sin t
               /\ cos (currentAzimuth + azimuthDiff t currentAzimuth) = cos t).
  { destruct (azimuthDiff_cases t currentAzimuth) as [H | [H | H]];
      rewrite H.
    - replace (currentAzimuth + (t - currentAzimuth)) with t by ring.
      split; reflexivity.
    - replace (currentAzimuth + (t - currentAzimuth - PI * 2))
        with (t - PI * 2) by ring.
      split; [apply sin_minus_turn | apply cos_minus_turn].
    - replace (currentAzimuth + (t - currentAzimuth + PI * 2))
        with (t + PI * 2) by ring.
      split; [apply sin_plus_turn | apply cos_plus_turn]. }
  destruct Hs as [Hsin Hcos]. repeat split; assumption.
Qed.

(** A geometric sequence with ratio of magnitude below 1 gets below any
    positive bound. *)
Lemma geometric_small (q D eps : R) :
  Rabs q < 1 -> 0 < eps ->
  exists N, forall n, (N <= n)%nat -> Rabs (q ^ n * D) < eps.
Proof.
  intros Hq Heps.
  assert (Hpos : 0 < eps / (Rabs D + 1)).
  { apply Rdiv_lt_0_compat; [exact Heps |]. pose proof (Rabs_pos D). lra. }
  destruct (pow_lt_1_zero q Hq (eps / (Rabs D + 1)) Hpos) as [N HN].
  exists N. intros n Hn. specialize (HN n ltac:(lia)).
  rewrite Rabs_mult.
  pose proof (Rabs_pos D) as HD. pose proof (Rabs_pos (q ^ n)) as Hqn.
  assert (Hlt : Rabs (q ^ n) * (Rabs D + 1) < eps).
  { apply Rmult_lt_reg_r with (/ (Rabs D + 1)).
    - apply Rinv_0_lt_compat. lra.
    - rewrite Rmult_assoc, Rinv_r by lra. unfold Rdiv in HN. lra. }
  nra.
Qed.

Lemma repeated_frame_errors (n : nat) (delta : R) (hand : HandPosition)
    (handScale : R) (c : Controls) :
  detected hand = true ->
  exists c',
    runFrames (repeat (mkFrame delta hand handScale) n) (Some c) = Some c'
    /\ polarAngle c' - targetPolar (y hand)
       = (1 - 8 * delta) ^ n * (polarAngle c - targetPolar (y hand))
    /\ distance c' - targetDistance handScale
       = (1 - 5 * delta) ^ n * (distance c - targetDistance handScale).
Proof.
  intros Hdet. revert c. induction n as [|n IH]; intros c.
  - exists c. split; [reflexivity |]. split; simpl; ring.
  - cbn [repeat runFrames frameDelta frameHand frameScale useFrame].
    rewrite Hdet.
    destruct (IH (updateControls delta hand handScale c))
      as [c' [Hrun [Hp Hd]]].
    exists c'. split; [exact Hrun |].
    rewrite Hp, Hd. unfold updateControls. cbn [polarAngle distance].
    unfold newPolar, newDistance, lerpSpeed, distanceLerpSpeed.
    split; simpl; ring.
Qed.

(** X5. While the hand is detected and held (the same sample, hand scale
    and frame time on every frame), from a pose within the limits and
    with [0 <= delta] and [delta * 8 <= 1], after [n] frames the pose is
    still within the limits, the polar error is the initial one times
    [(1 - 8 * delta) ^ n] and the distance error the initial one times
    [(1 - 5 * delta) ^ n]. *)
Theorem held_hand_closed_form (n : nat) (delta : R) (hand : HandPosition)
    (handScale : R) (c : Controls) :
  detected hand = true ->
  inLimits c ->
  0 <= delta ->
  delta * 8 <= 1 ->
  exists c',
    runFrames (repeat (mkFrame delta hand handScale) n) (Some c) = Some c'
    /\ inLimits c'
    /\ polarAngle c' - targetPolar (y hand)
       = (1 - 8 * delta) ^ n * (polarAngle c - targetPolar (y hand))
    /\ distance c' - targetDistance handScale
       = (1 - 5 * delta) ^ n * (distance c - targetDistance handScale).
Proof.
  intros Hdet Hlim H0 H1. revert c Hlim.
  induction n as [|n IH]; intros c Hlim.
  - exists c. split; [reflexivity |]. split; [exact Hlim |].
    split; simpl; ring.
  - assert (Hnext : inLimits (updateControls delta hand handScale c)).
    { apply ExperienceProps.updateControls_inLimits;
        [exact Hlim | exact H0 | unfold lerpSpeed; exact H1]. }
    destruct (IH (updateControls delta hand handScale c) Hnext)
      as [c' [Hrun [Hlim' [Hp Hd]]]].
    exists c'. split.
    + cbn [repeat runFrames frameDelta frameHand frameScale useFrame].
      rewrite Hdet. exact Hrun.
    + split; [exact Hlim' |].
      rewrite Hp, Hd. unfold updateControls. cbn [polarAngle distance].
      unfold newPolar, newDistance, lerpSpeed, distanceLerpSpeed.
      split; simpl; ring.
Qed.

Lemma held_hand_closed_form_witness :
  let c := mkControls 0 (PI / 4) 30 (mkVector3 0 4 30) (mkVector3 0 4 0) in
  inLimits c
  /\ exists c',
       runFrames (repeat (mkFrame (1 / 10) (mkHand 0.5 0.7 true) 2.5) 2)
                 (Some c) = Some c'
       /\ inLimits c'
       /\ distance c' - targetDistance 2.5
          = (1 - 5 * (1 / 10)) ^ 2 * (30 - targetDistance 2.5).
Proof.
  intros c.
  assert (Hlim : inLimits c).
  { unfold inLimits, c, minPolar, maxPolar, minDistance, maxDistance.
    cbn [polarAngle distance]. pose proof PI_RGT_0. lra. }
  split; [exact Hlim |].
  destruct (held_hand_closed_form 2 (1 / 10) (mkHand 0.5 0.7 true) 2.5 c
              eq_refl Hlim ltac:(lra) ltac:(lra))
    as [c' [Hrun [Hlim' [_ Hd]]]].
  exists c'. split; [exact Hrun |]. split; [exact Hlim' | exact Hd].
Defined.

(** X6. While the hand is detected and held with a constant frame time
    [0 < delta < 1/4], the polar angle and the distance converge to their
    targets: for every [eps > 0] both errors are below [eps] from some
    frame on. *)
Theorem held_hand_converges (delta : R) (hand : HandPosition)
    (handScale : R) (c : Controls) (eps : R) :
  detected hand = true ->
  0 < delta < 1 / 4 ->
  0 < eps ->
  exists N, forall n, (N <= n)%nat ->
    exists c',
      runFrames (repeat (mkFrame delta hand handScale) n) (Some c) = Some c'
      /\ Rabs (polarAngle c' - targetPolar (y hand)) < eps
      /\ Rabs (distance c' - targetDistance handScale) < eps.
Proof.
  intros Hdet Hdelta Heps.
  destruct (geometric_small (1 - 8 * delta)
              (polarAngle c - targetPolar (y hand)) eps) as [N1 H1];
    [apply Rabs_def1; lra | exact Heps |].
  destruct (geometric_small (1 - 5 * delta)
              (distance c - targetDistance handScale) eps) as [N2 H2];
    [apply Rabs_def1; lra | exact Heps |].
  exists (Nat.max N1 N2). intros n Hn.
  destruct (repeated_frame_errors n delta hand handScale c Hdet)
    as [c' [Hrun [Hp Hd]]].
  exists c'. split; [exact Hrun |].
  rewrite Hp, Hd. split; [apply H1 | apply H2]; lia.
Qed.

Lemma held_hand_converges_witness :
  0 < 1 / 60 < 1 / 4
  /\ exists N, forall n, (N <= n)%nat ->
       exists c',
         runFrames (repeat (mkFrame (1 / 60) (mkHand 0.5 0.7 true) 2.5) n)
                   (Some (mkControls 0 (PI / 4) 30 (mkVector3 0 4 30)
                                     (mkVector3 0 4 0)))
         = Some c'
         /\ Rabs (polarAngle c' - targetPolar 0.7) < 0.001
         /\ Rabs (distance c' - targetDistance 2.5) < 0.001.
Proof.
  split; [lra |].
  apply (held_hand_converges (1 / 60) (mkHand 0.5 0.7 true) 2.5
           (mkControls 0 (PI / 4) 30 (mkVector3 0 4 30) (mkVector3 0 4 0))
           0.001);
    [reflexivity | lra | lra].
Defined.

(** X7. Frames without a detected hand can be dropped from any sequence
    of frames: the final pose is the one obtained from the detected frames
    alone, so a loss of detection of any length leaves no trace. *)
Theorem undetected_frames_drop (frames : list Frame)
    (controlsRef : option Controls) :
  runFrames frames controlsRef
  = runFrames (filter (fun f => detected (frameHand f)) frames) controlsRef.
Proof.
  revert controlsRef. induction frames as [|f frames IH]; intros ref.
  - reflexivity.
  - cbn [runFrames filter].
    destruct (detected (frameHand f)) eqn:Hd.
    + cbn [runFrames]. apply IH.
    + rewrite IH. f_equal.
      unfold useFrame. rewrite Hd. destruct ref; reflexivity.
Qed.

(** X8. Within the limits the camera stays between the heights -1.24 and
    25.22, hence above the base plane [y = -4] of the scene group, for
    every azimuth. *)
Theorem camera_height_bounds (dist pol az : R) :
  minPolar <= pol <= maxPolar ->
  minDistance <= dist <= maxDistance ->
  -1.24 < vy (sphericalPosition dist pol az) < 25.22.
Proof.
  unfold minPolar, maxPolar, minDistance, maxDistance.
  intros Hp Hd. pose proof ExperienceProps.PI_bounds as Hb.
  assert (Hlo : - 0.1746 < cos pol).
  { apply Rlt_le_trans with (cos (PI / 1.8)).
    - replace (PI / 1.8) with (PI / 2 + PI / 18) by lra.
      pose proof (Rtrigo1.sin_cos (PI / 18)) as Hsc.
      pose proof (sin_lt_x (PI / 18) ltac:(lra)) as Hsx.
      lra.
    - apply cos_decr_1; lra. }
  assert (Hhi : cos pol < 0.7072).
  { apply Rle_lt_trans with (cos (PI / 4)).
    - apply cos_decr_1; lra.
    - rewrite cos_PI4.
      assert (Hs : 1.4141 < sqrt 2).
      { rewrite <- (sqrt_square 1.4141) by lra.
        apply sqrt_lt_1_alt. lra. }
      apply Rmult_lt_reg_r with (sqrt 2); [lra |].
      unfold Rdiv. rewrite Rmult_assoc, Rinv_l by lra. lra. }
  unfold sphericalPosition, targetY. cbn [vy]. split; nra.
Qed.

Lemma camera_height_bounds_witness :
  minPolar <= PI / 3 <= maxPolar
  /\ minDistance <= 20 <= maxDistance
  /\ -1.24 < vy (sphericalPosition 20 (PI / 3) 1) < 25.22.
Proof.
  pose proof PI_RGT_0 as Hpi.
  assert (Hp : minPolar <= PI / 3 <= maxPolar)
    by (unfold minPolar, maxPolar; lra).
  assert (Hd : minDistance <= 20 <= maxDistance)
    by (unfold minDistance, maxDistance; lra).
  split; [exact Hp |]. split; [exact Hd |].
  apply (camera_height_bounds 20 (PI / 3) 1 Hp Hd).
Defined.

End ExperienceExtra.

(** ** Further properties of the placards *)

Module PolaroidsExtra.
Import Polaroids.

Lemma forLoop_rng (photos : list string) (count remaining : nat) :
  forall i g data,
    snd (forLoop photos count remaining i g data)
    = mkRng (draws g) (consumed g + 3 * remaining).
Proof.
  induction remaining as [|r IH]; intros i g data.
  - destruct g as [dr n]. simpl. f_equal. lia.
  - rewrite PolaroidsProps.forLoop_step, IH. cbn [draws consumed].
    f_equal. lia.
Qed.

(** X9. The generator takes exactly three random draws per photo, in
    sequence, and none for the empty list: after generating, the random
    state has advanced by three times the number of photos. *)
Theorem generator_draws (photos : list string) (g : Rng) :
  snd (photoData photos g)
  = mkRng (draws g) (consumed g + 3 * List.length photos).
Proof.
  unfold photoData.
  destruct (List.length photos =? 0)%nat eqn:He.
  - apply Nat.eqb_eq in He. rewrite He.
    destruct g as [dr n]. simpl. f_equal. lia.
  - apply forLoop_rng.
Qed.

Lemma ratio_bounds (i count : nat) :
  (i < count)%nat -> 0 <= INR i / INR count < 1.
Proof.
  intros Hlt.
  assert (Hc : 0 < INR count) by (apply lt_0_INR; lia).
  assert (Hi : 0 <= INR i) by apply pos_INR.
  assert (Hic : INR i < INR count) by (apply lt_INR; exact Hlt).
  split.
  - apply Rmult_le_pos; [exact Hi |]. left. apply Rinv_0_lt_compat. exact Hc.
  - apply Rmult_lt_reg_r with (INR count); [exact Hc |].
    unfold Rdiv. rewrite Rmult_assoc, Rinv_l by lra. lra.
Qed.

Lemma ratio_increasing (i j count : nat) :
  (i < j)%nat -> (j < count)%nat -> INR i / INR count < INR j / INR count.
Proof.
  intros Hij Hj.
  assert (Hc : 0 < INR count) by (apply lt_0_INR; lia).
  apply Rmult_lt_compat_r; [apply Rinv_0_lt_compat; exact Hc |].
  apply lt_INR. exact Hij.
Qed.

Lemma index_in_range (photos : list string) (g : Rng) (i : nat)
    (d : PhotoData) :
  nth_error (fst (photoData photos g)) i = Some d ->
  (i < List.length photos)%nat.
Proof.
  intros Hd. rewrite <- (PolaroidsProps.photoData_length photos g).
  apply nth_error_Some. congruence.
Qed.

Lemma formed_on_circle (i count : nat) :
  vx (formedPosition i count) * vx (formedPosition i count)
  + vz (formedPosition i count) * vz (formedPosition i count)
  = radius i count * radius i count.
Proof.
  unfold formedPosition. cbn [vx vz].
  pose proof (sin2_cos2 (theta i)) as H. unfold Rsqr in H.
  transitivity (radius i count * radius i count
                * (sin (theta i) * sin (theta i)
                   + cos (theta i) * cos (theta i))); [ring |].
  rewrite H. ring.
Qed.

(** X10. Every generated formed position lies on the cone band: its
    height is in [1.8, 7.2) (20% to 80% of the height 9) and its
    horizontal distance [r] from the axis satisfies [1.8 < r <= 4.8]. *)
Theorem formed_band (photos : list string) (g : Rng) (i : nat)
    (d : PhotoData) :
  nth_error (fst (photoData photos g)) i = Some d ->
  1.8 <= vy (targetPos d) < 7.2
  /\ exists r,
       1.8 < r <= 4.8
       /\ vx (targetPos d) * vx (targetPos d)
          + vz (targetPos d) * vz (targetPos d) = r * r.
Proof.
  intros Hd. pose proof (index_in_range photos g i d Hd) as Hlt.
  destruct (PolaroidsProps.photoData_record photos g i Hlt)
    as [d' [Hd' [_ [_ [Htp _]]]]].
  assert (d' = d) by congruence. subst d'.
  pose proof (ratio_bounds i (List.length photos) Hlt) as Hr.
  rewrite Htp. split.
  - unfold formedPosition, yNorm, height. cbn [vy]. lra.
  - exists (radius i (List.length photos)). split.
    + unfold radius, yNorm, maxRadius. lra.
    + apply formed_on_circle.
Qed.

Lemma formed_band_witness :
  let photos := ["/photos/1.jpg"; "/photos/2.jpg"]%string in
  let g := mkRng (fun _ => 0.5) 0 in
  exists d,
    nth_error (fst (photoData photos g)) 1 = Some d
    /\ 1.8 <= vy (targetPos d) < 7.2.
Proof.
  intros photos g.
  destruct (PolaroidsProps.photoData_record photos g 1) as [d [Hd _]];
    [simpl; lia |].
  exists d. split; [exact Hd |].
  apply (formed_band photos g 1 d Hd).
Defined.

(** X11. Along the spiral the placards rise and the cone narrows: of two
    generated records the one with the larger index is strictly higher
    and strictly closer to the axis. *)
Theorem formed_spiral_rises (photos : list string) (g : Rng) (i j : nat)
    (di dj : PhotoData) :
  (i < j)%nat ->
  nth_error (fst (photoData photos g)) i = Some di ->
  nth_error (fst (photoData photos g)) j = Some dj ->
  vy (targetPos di) < vy (targetPos dj)
  /\ vx (targetPos dj) * vx (targetPos dj)
     + vz (targetPos dj) * vz (targetPos dj)
     < vx (targetPos di) * vx (targetPos di)
       + vz (targetPos di) * vz (targetPos di).
Proof.
  intros Hij Hi Hj.
  pose proof (index_in_range photos g i di Hi) as Hli.
  pose proof (index_in_range photos g j dj Hj) as Hlj.
  destruct (PolaroidsProps.photoData_record photos g i Hli)
    as [di' [Hdi [_ [_ [Hti _]]]]].
  destruct (PolaroidsProps.photoData_record photos g j Hlj)
    as [dj' [Hdj [_ [_ [Htj _]]]]].
  assert (di' = di) by congruence. assert (dj' = dj) by congruence.
  subst di' dj'.
  pose proof (ratio_increasing i j (List.length photos) Hij Hlj) as Hinc.
  pose proof (ratio_bounds i (List.length photos) Hli) as Hbi.
  pose proof (ratio_bounds j (List.length photos) Hlj) as Hbj.
  rewrite Hti, Htj. split.
  - unfold formedPosition, yNorm, height. cbn [vy]. lra.
  - rewrite !formed_on_circle. unfold radius, yNorm, maxRadius. nra.
Qed.

Lemma formed_spiral_rises_witness :
  let photos := ["/photos/1.jpg"; "/photos/2.jpg"]%string in
  let g := mkRng (fun _ => 0.5) 0 in
  exists di dj,
    nth_error (fst (photoData photos g)) 0 = Some di
    /\ nth_error (fst (photoData photos g)) 1 = Some dj
    /\ vy (targetPos di) < vy (targetPos dj).
Proof.
  intros photos g.
  destruct (PolaroidsProps.photoData_record photos g 0) as [di [Hdi _]];
    [simpl; lia |].
  destruct (PolaroidsProps.photoData_record photos g 1) as [dj [Hdj _]];
    [simpl; lia |].
  exists di, dj. split; [exact Hdi |]. split; [exact Hdj |].
  apply (formed_spiral_rises photos g 0 1 di dj); [lia | exact Hdi | exact Hdj].
Defined.

Lemma generated_speed_range (photos : list string) (g : Rng) (i : nat)
    (d : PhotoData) :
  (forall n, 0 <= draws g n < 1) ->
  nth_error (fst (photoData photos g)) i = Some d ->
  0.8 <= speed d < 2.3.
Proof.
  intros Hdraw Hd. pose proof (index_in_range photos g i d Hd) as Hlt.
  destruct (PolaroidsProps.photoData_record photos g i Hlt)
    as [d' [Hd' [_ [_ [_ [_ Hsp]]]]]].
  assert (d' = d) by congruence. subst d'.
  rewrite Hsp. pose proof (Hdraw (S (S (consumed g + 3 * i)))). lra.
Qed.

(** X12. When every draw of [Math.random] lies in [0, 1), each generated
    record has its chaos position in the box [-8.5 < x < 8.5],
    [1 <= y <= 9], [12.5 <= z <= 19.5] and its speed in [0.8, 2.3). *)
Theorem chaos_box (photos : list string) (g : Rng) (i : nat)
    (d : PhotoData) :
  (forall n, 0 <= draws g n < 1) ->
  nth_error (fst (photoData photos g)) i = Some d ->
  -8.5 < vx (chaosPos d) < 8.5
  /\ 1 <= vy (chaosPos d) <= 9
  /\ 12.5 <= vz (chaosPos d) <= 19.5
  /\ 0.8 <= speed d < 2.3.
Proof.
  intros Hdraw Hd. pose proof (index_in_range photos g i d Hd) as Hlt.
  destruct (PolaroidsProps.photoData_record photos g i Hlt)
    as [d' [Hd' [_ [_ [_ [Hcp Hsp]]]]]].
  assert (d' = d) by congruence. subst d'.
  rewrite Hcp, Hsp. unfold chaosPosition, relativeY, relativeZ. cbn [vx vy vz].
  set (angle := INR i / INR (List.length photos) * PI * 2).
  pose proof (Hdraw (consumed g + 3 * i)%nat) as H1.
  pose proof (Hdraw (S (consumed g + 3 * i))) as H2.
  pose proof (Hdraw (S (S (consumed g + 3 * i)))) as H3.
  pose proof (COS_bound angle) as Hc. pose proof (SIN_bound angle) as Hs.
  repeat split; nra.
Qed.

Lemma chaos_box_witness :
  let photos := ["/photos/1.jpg"; "/photos/2.jpg"]%string in
  let g := mkRng (fun _ => 0.5) 0 in
  (forall n, 0 <= draws g n < 1)
  /\ exists d,
       nth_error (fst (photoData photos g)) 1 = Some d
       /\ 1 <= vy (chaosPos d) <= 9
       /\ 0.8 <= speed d < 2.3.
Proof.
  intros photos g.
  assert (Hdraw : forall n, 0 <= draws g n < 1) by (intros n; simpl; lra).
  split; [exact Hdraw |].
  destruct (PolaroidsProps.photoData_record photos g 1) as [d [Hd _]];
    [simpl; lia |].
  exists d. split; [exact Hd |].
  destruct (chaos_box photos g 1 d Hdraw Hd) as [_ [Hy [_ Hsp]]].
  split; [exact Hy | exact Hsp].
Defined.

(** X13. A generated placard always settles at a steady frame rate: when
    every draw lies in [0, 1) and the frame time is a constant
    [0 < delta <= 0.8], then for either mode, every starting position and
    every [eps > 0] the rendered position is within [eps] of the target of
    that mode from some frame on. *)
Theorem generated_item_converges (photos : list string) (g : Rng) (i : nat)
    (d : PhotoData) (mode : TreeMode) (scales : nat -> R) (delta : R)
    (group : Group) (eps : R) :
  (forall n, 0 <= draws g n < 1) ->
  nth_error (fst (photoData photos g)) i = Some d ->
  0 < delta <= 0.8 ->
  0 < eps ->
  exists N, forall n, (N <= n)%nat ->
    exists g',
      runFrames mode d scales (fun _ => delta) n (Some group) = Some g'
      /\ Vector3_distanceTo (position g') (selectTarget mode d) < eps.
Proof.
  intros Hdraw Hd Hdelta Heps.
  pose proof (generated_speed_range photos g i d Hdraw Hd) as Hsp.
  set (q := Rmax (1 - 0.8 * delta) 0.84).
  assert (Hq : 0 <= q < 1).
  { unfold q, Rmax. destruct (Rle_dec (1 - 0.8 * delta) 0.84); lra. }
  assert (Hstep : forall k : nat, Rabs (1 - delta * speed d) <= q).
  { intros _. apply Rabs_le. unfold q, Rmax.
    destruct (Rle_dec (1 - 0.8 * delta) 0.84); split; nra. }
  destruct (ExperienceExtra.geometric_small q
              (Vector3_distanceTo (position group) (selectTarget mode d)) eps)
    as [N HN]; [rewrite Rabs_pos_eq; lra | exact Heps |].
  exists N. intros n Hn.
  destruct (PolaroidsProps.runFrames_distance mode d scales (fun _ => delta)
              group q Hstep n) as [g' [Hrun Hle]].
  exists g'. split; [exact Hrun |].
  specialize (HN n Hn).
  pose proof (Rle_abs (q ^ n * Vector3_distanceTo (position group)
                                 (selectTarget mode d))).
  lra.
Qed.

Lemma generated_item_converges_witness :
  let photos := ["/photos/1.jpg"; "/photos/2.jpg"]%string in
  let g := mkRng (fun _ => 0.5) 0 in
  exists d,
    nth_error (fst (photoData photos g)) 1 = Some d
    /\ exists N, forall n, (N <= n)%nat ->
         exists g',
           runFrames CHAOS d (fun _ => 1) (fun _ => 1 / 60) n
                     (Some (mkGroup (mkVector3 0 0 0) 1)) = Some g'
           /\ Vector3_distanceTo (position g') (selectTarget CHAOS d) < 0.01.
Proof.
  intros photos g.
  assert (Hdraw : forall n, 0 <= draws g n < 1) by (intros n; simpl; lra).
  destruct (PolaroidsProps.photoData_record photos g 1) as [d [Hd _]];
    [simpl; lia |].
  exists d. split; [exact Hd |].
  apply (generated_item_converges photos g 1 d CHAOS (fun _ => 1) (1 / 60)
           (mkGroup (mkVector3 0 0 0) 1) 0.01 Hdraw Hd); lra.
Defined.

(** X14. At 2.5 frames per second or faster a generated placard never
    moves away from its target: when every draw lies in [0, 1) and every
    frame time lies in [0, 0.4], the distance to the target of the mode
    after [n + 1] frames is at most the distance after [n] frames. *)
Theorem generated_item_approaches (photos : list string) (g : Rng) (i : nat)
    (d : PhotoData) (mode : TreeMode) (scales deltas : nat -> R)
    (group : Group) (n : nat) :
  (forall k, 0 <= draws g k < 1) ->
  nth_error (fst (photoData photos g)) i = Some d ->
  (forall k, 0 <= deltas k <= 0.4) ->
  exists g1 g2,
    runFrames mode d scales deltas n (Some group) = Some g1
    /\ runFrames mode d scales deltas (S n) (Some group) = Some g2
    /\ Vector3_distanceTo (position g2) (selectTarget mode d)
       <= Vector3_distanceTo (position g1) (selectTarget mode d).
Proof.
  intros Hdraw Hd Hdelta.
  pose proof (generated_speed_range photos g i d Hdraw Hd) as Hsp.
  assert (Hstep : forall k : nat, Rabs (1 - deltas k * speed d) <= 1).
  { intros k. specialize (Hdelta k). apply Rabs_le. split; nra. }
  destruct (PolaroidsProps.runFrames_distance mode d scales deltas group 1
              Hstep n) as [g1 [Hrun _]].
  exists g1. eexists. split; [exact Hrun |].
  cbn [runFrames]. rewrite Hrun. cbn [useFrame].
  split; [reflexivity |].
  cbn [position]. rewrite PolaroidsProps.lerp_distance.
  pose proof (PolaroidsProps.distance_nonneg (position g1)
                (selectTarget mode d)) as Hpos.
  pose proof (Hstep n) as Hn.
  pose proof (Rabs_pos (1 - deltas n * speed d)) as Ha.
  nra.
Qed.

Lemma generated_item_approaches_witness :
  let photos := ["/photos/1.jpg"; "/photos/2.jpg"]%string in
  let g := mkRng (fun _ => 0.5) 0 in
  exists d g1 g2,
    nth_error (fst (photoData photos g)) 0 = Some d
    /\ runFrames FORMED d (fun _ => 1) (fun _ => 1 / 30) 3
                 (Some (mkGroup (mkVector3 0 0 0) 1)) = Some g1
    /\ runFrames FORMED d (fun _ => 1) (fun _ => 1 / 30) 4
                 (Some (mkGroup (mkVector3 0 0 0) 1)) = Some g2
    /\ Vector3_distanceTo (position g2) (selectTarget FORMED d)
       <= Vector3_distanceTo (position g1) (selectTarget FORMED d).
Proof.
  intros photos g.
  assert (Hdraw : forall n, 0 <= draws g n < 1) by (intros n; simpl; lra).
  destruct (PolaroidsProps.photoData_record photos g 0) as [d [Hd _]];
    [simpl; lia |].
  destruct (generated_item_approaches photos g 0 d FORMED (fun _ => 1)
              (fun _ => 1 / 30) (mkGroup (mkVector3 0 0 0) 1) 3 Hdraw Hd)
    as [g1 [g2 H]]; [intros _; lra |].
  exists d, g1, g2. split; [exact Hd | exact H].
Defined.

(** X15. The secondary motion is small: it leaves the [y] angle alone,
    moves the [x] angle by at most 0.03 in both modes, and moves the [z]
    angle by at most 0.05 when formed and at most 0.03 in chaos, at every
    time and for every phase. *)
Theorem secondary_motion_small (mode : TreeMode) (time offset : R)
    (currentRot : Euler) :
  let rot := secondaryMotion mode time offset currentRot in
  ey rot = ey currentRot
  /\ Rabs (ex rot - ex currentRot) <= 0.03
  /\ Rabs (ez rot - ez currentRot) <= 0.05
  /\ (mode = CHAOS -> Rabs (ez rot - ez currentRot) <= 0.03).
Proof.
  destruct mode; cbn [secondaryMotion ex ey ez].
  - pose proof (SIN_bound (time * 2.0 + offset)) as Hs.
    pose proof (COS_bound (time * 1.5 + offset)) as Hc.
    split; [reflexivity |].
    split; [apply Rabs_le; lra |].
    split; [apply Rabs_le; lra | discriminate].
  - pose proof (SIN_bound (time * 1.5 + offset)) as Hs.
    pose proof (COS_bound (time * 1.2 + offset)) as Hc.
    split; [reflexivity |].
    split; [apply Rabs_le; lra |].
    split; [apply Rabs_le; lra | intros _; apply Rabs_le; lra].
Qed.

Lemma secondary_motion_small_witness :
  Rabs (ez (secondaryMotion CHAOS 12 40 (mkEuler 0.1 0.2 0.3)) - 0.3) <= 0.03.
Proof.
  apply (proj2 (proj2 (proj2
           (secondary_motion_small CHAOS 12 40 (mkEuler 0.1 0.2 0.3))))).
  reflexivity.
Defined.

End PolaroidsExtra.

(** ** Properties of the host component *)

Module AppProps.
Import App.

Open Scope string_scope.

(** *** Digits and the path pattern *)

Lemma spanDigits_uint (d : Decimal.uint) :
  spanDigits (NilEmpty.string_of_uint d) = (NilEmpty.string_of_uint d, "").
Proof.
  induction d; cbn [NilEmpty.string_of_uint spanDigits];
    try reflexivity;
    (change (isDigit _) with true at 1 || idtac); rewrite ?IHd;
    cbn; rewrite ?IHd; reflexivity.
Qed.

Lemma uint_string_nonempty (n : nat) :
  NilEmpty.string_of_uint (Nat.to_uint n) <> "".
Proof.
  assert (Hn : Nat.to_uint n <> Decimal.Nil).
  { pose proof (Unsigned.to_of (Nat.to_uint n)) as H.
    rewrite Unsigned.of_to in H. rewrite H.
    unfold Decimal.unorm. destruct (Decimal.nzhead (Nat.to_uint n));
      discriminate. }
  destruct (Nat.to_uint n); [congruence | ..]; discriminate.
Qed.

(** The digits found at the head of a string are themselves all digits. *)
Lemma spanDigits_fst (s ds tl : string) :
  spanDigits s = (ds, tl) -> spanDigits ds = (ds, "").
Proof.
  revert ds tl. induction s as [|c s IH]; intros ds tl H.
  - cbn in H. inversion H. reflexivity.
  - cbn [spanDigits] in H. destruct (isDigit c) eqn:Hc.
    + pose proof (IH (fst (spanDigits s)) (snd (spanDigits s))
                     (surjective_pairing _)) as Hd.
      destruct (spanDigits s) as [ds' tl']. cbn [fst snd] in Hd.
      inversion H; subst. cbn [spanDigits]. rewrite Hc, Hd. reflexivity.
    + inversion H. reflexivity.
Qed.

Lemma spanDigits_jpg (ds : string) :
  spanDigits ds = (ds, "") -> spanDigits (ds ++ ".jpg") = (ds, ".jpg").
Proof.
  induction ds as [|c ds IH]; intros H.
  - reflexivity.
  - cbn [spanDigits append] in H |- *.
    destruct (isDigit c) eqn:Hc; [| discriminate].
    destruct (spanDigits ds) as [ds' tl'].
    inversion H; subst. rewrite IH by reflexivity. reflexivity.
Qed.

Lemma matchAfterSlash_digits (ds : string) :
  ds <> "" -> spanDigits ds = (ds, "") ->
  matchAfterSlash (ds ++ ".jpg") = Some ds.
Proof.
  intros Hne Hds. unfold matchAfterSlash. rewrite (spanDigits_jpg ds Hds).
  destruct (String.eqb_spec ds ""); [contradiction |]. reflexivity.
Qed.

Lemma matchGroup_photoPath (i : nat) :
  matchGroup (photoPath i) = Some (NilEmpty.string_of_uint (Nat.to_uint i)).
Proof.
  unfold photoPath.
  set (ds := NilEmpty.string_of_uint (Nat.to_uint i)).
  change (matchGroup ("/photos/" ++ ds ++ ".jpg"))
    with (match matchAfterSlash ("photos/" ++ ds ++ ".jpg") with
          | Some x => Some x
          | None => match matchAfterSlash (ds ++ ".jpg") with
                    | Some x => Some x
                    | None => matchGroup (ds ++ ".jpg")
                    end
          end).
  change (matchAfterSlash ("photos/" ++ ds ++ ".jpg")) with (@None string).
  rewrite matchAfterSlash_digits;
    [reflexivity | apply uint_string_nonempty | apply spanDigits_uint].
Qed.

Lemma parseInt_uint (n : nat) :
  parseInt (NilEmpty.string_of_uint (Nat.to_uint n)) = Some n.
Proof.
  unfold parseInt. rewrite spanDigits_uint.
  destruct (String.eqb_spec (NilEmpty.string_of_uint (Nat.to_uint n)) "")
    as [He | _].
  - exfalso. exact (uint_string_nonempty n He).
  - rewrite NilEmpty.usu. cbn [option_map]. rewrite Unsigned.of_to.
    reflexivity.
Qed.

Lemma photoNumber_photoPath (i : nat) :
  photoNumber (photoPath i) = Some i.
Proof.
  unfold photoNumber. rewrite matchGroup_photoPath.
  destruct (String.eqb_spec (NilEmpty.string_of_uint (Nat.to_uint i)) "")
    as [He | _].
  - exfalso. exact (uint_string_nonempty i He).
  - apply parseInt_uint.
Qed.

(** X16. Reading the number back from a generated path gives the number:
    the pattern finds the digits of [/photos/<i>.jpg] and [parseInt]
    returns [i], for every [i]; hence distinct numbers never share a
    path. *)
Theorem photo_number_roundtrip (i j : nat) :
  photoNumber (photoPath i) = Some i
  /\ (photoPath i = photoPath j -> i = j).
Proof.
  split.
  - apply photoNumber_photoPath.
  - intros He.
    pose proof (photoNumber_photoPath i) as Hi.
    pose proof (photoNumber_photoPath j) as Hj.
    rewrite He in Hi. congruence.
Qed.

Lemma photo_number_roundtrip_witness :
  photoNumber "/photos/17.jpg" = Some 17%nat.
Proof. exact (proj1 (photo_number_roundtrip 17 17)). Defined.

Lemma digit_char (c : ascii) (d : Decimal.uint) :
  isDigit c = true -> exists d', uint_of_char c (Some d) = Some d'.
Proof.
  destruct c as [[] [] [] [] [] [] [] []]; intros H;
    try (vm_compute in H; discriminate); cbn; eauto.
Qed.

Lemma digits_parse (ds : string) :
  spanDigits ds = (ds, "") -> exists d, NilEmpty.uint_of_string ds = Some d.
Proof.
  induction ds as [|c ds IH]; intros H.
  - exists Decimal.Nil. reflexivity.
  - cbn [spanDigits] in H. destruct (isDigit c) eqn:Hc; [| discriminate].
    destruct (spanDigits ds) as [ds' tl'].
    inversion H; subst.
    destruct (IH eq_refl) as [d Hd].
    cbn [NilEmpty.uint_of_string]. rewrite Hd. apply digit_char. exact Hc.
Qed.

Lemma matchAfterSlash_group (rest ds : string) :
  matchAfterSlash rest = Some ds -> ds <> "" /\ spanDigits ds = (ds, "").
Proof.
  unfold matchAfterSlash. intros H.
  pose proof (spanDigits_fst rest (fst (spanDigits rest))
                (snd (spanDigits rest)) (surjective_pairing _)) as Hd.
  destruct (spanDigits rest) as [ds' tl']. cbn [fst snd] in Hd.
  destruct (String.eqb_spec ds' ""); [discriminate |].
  destruct (String.eqb_spec tl' ".jpg"); [| discriminate].
  inversion H; subst. split; assumption.
Qed.

Lemma matchGroup_group (s ds : string) :
  matchGroup s = Some ds -> ds <> "" /\ spanDigits ds = (ds, "").
Proof.
  induction s as [|c s IH]; intros H; cbn [matchGroup] in H.
  - discriminate.
  - destruct (Ascii.eqb c "/").
    + destruct (matchAfterSlash s) as [x|] eqn:Hm.
      * inversion H; subst. apply (matchAfterSlash_group s). exact Hm.
      * apply IH. exact H.
    + apply IH. exact H.
Qed.

Lemma photoNumber_some (a : string) : exists n, photoNumber a = Some n.
Proof.
  unfold photoNumber.
  destruct (matchGroup a) as [ds|] eqn:Hm.
  - destruct (matchGroup_group a ds Hm) as [Hne Hds].
    destruct (String.eqb_spec ds ""); [contradiction |].
    destruct (digits_parse ds Hds) as [d Hd].
    exists (Nat.of_uint d). unfold parseInt. rewrite Hds.
    destruct (String.eqb_spec ds ""); [contradiction |].
    rewrite Hd. reflexivity.
  - exists 0%nat. reflexivity.
Qed.

(** X17. The number read from a name is never NaN: for every string,
    whether or not it has the form of a photo path, [photoNumber] yields a
    number, and it is 0 when the pattern does not match. *)
Theorem photo_number_defined (a : string) :
  (exists n, photoNumber a = Some n)
  /\ (matchGroup a = None -> photoNumber a = Some 0%nat).
Proof.
  split; [apply photoNumber_some |].
  intros Hm. unfold photoNumber. rewrite Hm. reflexivity.
Qed.

Lemma photo_number_defined_witness :
  matchGroup "/photos/cover.jpg" = None
  /\ photoNumber "/photos/cover.jpg" = Some 0%nat.
Proof.
  split; [reflexivity |].
  apply (proj2 (photo_number_defined "/photos/cover.jpg")). reflexivity.
Defined.

(** *** The sort *)

Lemma compare_numbers (a b : string) :
  exists na nb,
    photoNumber a = Some na /\ photoNumber b = Some nb
    /\ compareByNumber a b = (Z.of_nat na - Z.of_nat nb)%Z.
Proof.
  destruct (photoNumber_some a) as [na Ha].
  destruct (photoNumber_some b) as [nb Hb].
  exists na, nb. unfold compareByNumber. rewrite Ha, Hb. auto.
Qed.

Lemma compare_total (a b : string) :
  (compareByNumber a b <= 0)%Z \/ (compareByNumber b a <= 0)%Z.
Proof.
  destruct (compare_numbers a b) as [na [nb [Ha [Hb Hab]]]].
  destruct (compare_numbers b a) as [nb' [na' [Hb' [Ha' Hba]]]].
  assert (na' = na) by congruence. assert (nb' = nb) by congruence.
  subst. lia.
Qed.

Lemma compare_trans (a b c : string) :
  (compareByNumber a b <= 0)%Z -> (compareByNumber b c <= 0)%Z ->
  (compareByNumber a c <= 0)%Z.
Proof.
  destruct (compare_numbers a b) as [na [nb [Ha [Hb Hab]]]].
  destruct (compare_numbers b c) as [nb' [nc [Hb' [Hc Hbc]]]].
  destruct (compare_numbers a c) as [na' [nc' [Ha' [Hc' Hac]]]].
  assert (na' = na) by congruence. assert (nb' = nb) by congruence.
  assert (nc' = nc) by congruence. subst. lia.
Qed.

Lemma compare_paths (i j : nat) :
  compareByNumber (photoPath i) (photoPath j) = (Z.of_nat i - Z.of_nat j)%Z.
Proof.
  unfold compareByNumber. rewrite !photoNumber_photoPath. reflexivity.
Qed.

Lemma insertSorted_perm (cmp : string -> string -> Z) (a : string)
    (l : list string) :
  Permutation (insertSorted cmp a l) (a :: l).
Proof.
  induction l as [|b l IH]; cbn [insertSorted].
  - apply Permutation_refl.
  - destruct (cmp a b <=? 0)%Z.
    + apply Permutation_refl.
    + apply perm_trans with (b :: a :: l).
      * apply perm_skip. exact IH.
      * apply perm_swap.
Qed.

Lemma Array_sort_perm (cmp : string -> string -> Z) (l : list string) :
  Permutation (Array_sort cmp l) l.
Proof.
  induction l as [|a l IH]; cbn [Array_sort fold_right].
  - apply perm_nil.
  - apply perm_trans with (a :: Array_sort cmp l).
    + apply insertSorted_perm.
    + apply perm_skip. exact IH.
Qed.

Lemma insertSorted_sorted (a : string) (l : list string) :
  StronglySorted (fun u v => (compareByNumber u v <= 0)%Z) l ->
  StronglySorted (fun u v => (compareByNumber u v <= 0)%Z)
                 (insertSorted compareByNumber a l).
Proof.
  induction l as [|b l IH]; intros Hs; cbn [insertSorted].
  - constructor; constructor.
  - apply StronglySorted_inv in Hs. destruct Hs as [Hl Hb].
    destruct (compareByNumber a b <=? 0)%Z eqn:Hab.
    + apply Z.leb_le in Hab. constructor.
      * constructor; assumption.
      * constructor; [exact Hab |].
        apply Forall_forall. intros v Hv.
        apply compare_trans with b; [exact Hab |].
        rewrite Forall_forall in Hb. apply Hb. exact Hv.
    + apply Z.leb_gt in Hab. constructor.
      * apply IH. exact Hl.
      * apply Forall_forall. intros v Hv.
        apply (Permutation_in _ (insertSorted_perm compareByNumber a l))
          in Hv.
        destruct Hv as [<- | Hv].
        -- destruct (compare_total a b); [lia | assumption].
        -- rewrite Forall_forall in Hb. apply Hb. exact Hv.
Qed.

Lemma Array_sort_sorted (l : list string) :
  StronglySorted (fun u v => (compareByNumber u v <= 0)%Z)
                 (Array_sort compareByNumber l).
Proof.
  induction l as [|a l IH]; cbn [Array_sort fold_right].
  - constructor.
  - apply insertSorted_sorted. exact IH.
Qed.

(** X18. Sorting by number keeps exactly the given names (none lost, none
    duplicated) and leaves them in an order in which no name compares
    greater than a later one, for every list of names. *)
Theorem sort_by_number (l : list string) :
  Permutation (Array_sort compareByNumber l) l
  /\ StronglySorted (fun u v => (compareByNumber u v <= 0)%Z)
                    (Array_sort compareByNumber l).
Proof.
  split.
  - induction l as [|a l IH]; cbn [Array_sort fold_right].
    + apply perm_nil.
    + apply perm_trans with (a :: Array_sort compareByNumber l);
        [apply insertSorted_perm | apply perm_skip; exact IH].
  - induction l as [|a l IH]; cbn [Array_sort fold_right].
    + constructor.
    + apply insertSorted_sorted. exact IH.
Qed.

(** Two sorted arrangements of the same names agree when no two distinct
    names compare equal. *)
Lemma sorted_perm_unique (l l' : list string) :
  Permutation l l' ->
  StronglySorted (fun u v => (compareByNumber u v <= 0)%Z) l ->
  StronglySorted (fun u v => (compareByNumber u v <= 0)%Z) l' ->
  (forall a b, In a l -> In b l ->
     (compareByNumber a b <= 0)%Z -> (compareByNumber b a <= 0)%Z -> a = b) ->
  l = l'.
Proof.
  revert l'. induction l as [|a t IH]; intros l' Hperm Hs Hs' Hanti.
  - apply Permutation_nil in Hperm. congruence.
  - destruct l' as [|b t'].
    + apply Permutation_sym, Permutation_nil in Hperm. discriminate.
    + apply StronglySorted_inv in Hs. destruct Hs as [Hst Ha].
      apply StronglySorted_inv in Hs'. destruct Hs' as [Hst' Hb].
      rewrite Forall_forall in Ha, Hb.
      assert (Hab : a = b).
      { assert (Hina : In a (b :: t'))
          by (apply (Permutation_in _ Hperm); left; reflexivity).
        assert (Hinb : In b (a :: t))
          by (apply (Permutation_in _ (Permutation_sym Hperm)); left;
              reflexivity).
        destruct Hina as [-> | Hina]; [reflexivity |].
        destruct Hinb as [-> | Hinb]; [reflexivity |].
        apply Hanti; [left; reflexivity | right; exact Hinb
                     | apply Ha; exact Hinb | apply Hb; exact Hina]. }
      subst b. f_equal.
      apply IH; [exact (Permutation_cons_inv Hperm) | exact Hst | exact Hst' |].
      intros u v Hu Hv. apply Hanti; right; assumption.
Qed.

Lemma filter_perm (f : nat -> bool) (l l' : list nat) :
  Permutation l l' -> Permutation (filter f l) (filter f l').
Proof.
  induction 1 as [| x l l' _ IH | x y l | l l' l'' _ IH1 _ IH2];
    cbn [filter].
  - apply perm_nil.
  - destruct (f x); [apply perm_skip |]; exact IH.
  - destruct (f x), (f y);
      try apply Permutation_refl. apply perm_swap.
  - exact (perm_trans IH1 IH2).
Qed.

Lemma seq_increasing (len start : nat) : StronglySorted lt (seq start len).
Proof.
  revert start. induction len as [|len IH]; intros start; cbn [seq].
  - constructor.
  - constructor; [apply IH |].
    apply Forall_forall. intros v Hv. apply in_seq in Hv. lia.
Qed.

Lemma filter_increasing (f : nat -> bool) (l : list nat) :
  StronglySorted lt l -> StronglySorted lt (filter f l).
Proof.
  induction 1 as [| a l Hs IH Ha]; cbn [filter].
  - constructor.
  - destruct (f a); [| exact IH].
    constructor; [exact IH |].
    rewrite Forall_forall in Ha |- *. intros v Hv.
    apply Ha. apply filter_In in Hv. tauto.
Qed.

Lemma paths_sorted (ns : list nat) :
  StronglySorted lt ns ->
  StronglySorted (fun u v => (compareByNumber u v <= 0)%Z)
                 (map photoPath ns).
Proof.
  induction 1 as [| a l Hs IH Ha]; cbn [map].
  - constructor.
  - constructor; [exact IH |].
    rewrite Forall_forall in Ha |- *. intros v Hv.
    apply in_map_iff in Hv. destruct Hv as [j [<- Hj]].
    rewrite compare_paths. specialize (Ha j Hj). lia.
Qed.

Lemma sorted_paths (loads : nat -> bool) (order : list nat) :
  Permutation order (seq 1 maxPhotos) ->
  Array_sort compareByNumber (map photoPath (filter loads order))
  = map photoPath (filter loads (seq 1 maxPhotos)).
Proof.
  intros Hperm.
  apply sorted_perm_unique.
  - apply perm_trans with (map photoPath (filter loads order)).
    + apply Array_sort_perm.
    + apply Permutation_map, filter_perm. exact Hperm.
  - apply Array_sort_sorted.
  - apply paths_sorted, filter_increasing, seq_increasing.
  - intros a b Ha Hb Hab Hba.
    apply (Permutation_in _ (Array_sort_perm _ _)) in Ha, Hb.
    apply in_map_iff in Ha, Hb.
    destruct Ha as [i [<- _]]. destruct Hb as [j [<- _]].
    rewrite compare_paths in Hab, Hba.
    replace j with i by lia. reflexivity.
Qed.

(** X19. Whatever the order in which the 32 image probes complete, the
    photo list set by the loader is the paths of the images that loaded
    in increasing numeric order (so [/photos/2.jpg] comes before
    [/photos/10.jpg]); when no image loads the previous list is kept. *)
Theorem photos_in_numeric_order (loads : nat -> bool) (order : list nat)
    (uploadedPhotos : list string) :
  Permutation order (seq 1 maxPhotos) ->
  loadPredefinedPhotos loads order uploadedPhotos
  = match filter loads (seq 1 maxPhotos) with
    | [] => uploadedPhotos
    | _ :: _ => map photoPath (filter loads (seq 1 maxPhotos))
    end.
Proof.
  intros Hperm. unfold loadPredefinedPhotos.
  rewrite (sorted_paths loads order Hperm).
  destruct (filter loads (seq 1 maxPhotos)); reflexivity.
Qed.

Lemma photos_in_numeric_order_witness :
  let loads := fun i => ((i =? 2) || (i =? 10) || (i =? 1))%nat in
  Permutation (rev (seq 1 maxPhotos)) (seq 1 maxPhotos)
  /\ loadPredefinedPhotos loads (rev (seq 1 maxPhotos)) []
     = ["/photos/1.jpg"; "/photos/2.jpg"; "/photos/10.jpg"].
Proof.
  intros loads.
  assert (Hperm : Permutation (rev (seq 1 maxPhotos)) (seq 1 maxPhotos))
    by (apply Permutation_sym, Permutation_rev).
  split; [exact Hperm |].
  rewrite (photos_in_numeric_order loads (rev (seq 1 maxPhotos)) [] Hperm).
  reflexivity.
Defined.

Lemma filter_length (f : nat -> bool) (l : list nat) :
  (List.length (filter f l) <= List.length l)%nat.
Proof.
  induction l as [|a l IH]; cbn [filter List.length]; [lia |].
  destruct (f a); cbn [List.length]; lia.
Qed.

(** X20. From the loader to the placards: started with no photos, after
    the probes there is one placard per image that loaded, at most 32,
    and the placard at index [k] shows the image with the [k]-th smallest
    number among those that loaded. *)
Theorem placards_follow_photos (loads : nat -> bool) (order : list nat)
    (g : Polaroids.Rng) :
  Permutation order (seq 1 maxPhotos) ->
  let data := fst (Polaroids.photoData (loadPredefinedPhotos loads order []) g)
  in
  List.length data = List.length (filter loads (seq 1 maxPhotos))
  /\ (List.length data <= 32)%nat
  /\ forall k n,
       nth_error (filter loads (seq 1 maxPhotos)) k = Some n ->
       exists d,
         nth_error data k = Some d
         /\ Polaroids.id d = k
         /\ Polaroids.url d = Some (photoPath n).
Proof.
  intros Hperm data.
  assert (Hphotos : loadPredefinedPhotos loads order []
                    = map photoPath (filter loads (seq 1 maxPhotos))).
  { unfold loadPredefinedPhotos.
    rewrite (sorted_paths loads order Hperm).
    destruct (filter loads (seq 1 maxPhotos)); reflexivity. }
  assert (Hlen : List.length data
                 = List.length (filter loads (seq 1 maxPhotos))).
  { unfold data. rewrite PolaroidsProps.photoData_length, Hphotos.
    apply length_map. }
  split; [exact Hlen |]. split.
  - rewrite Hlen.
    pose proof (filter_length loads (seq 1 maxPhotos)) as H.
    rewrite length_seq in H. exact H.
  - intros k n Hk.
    assert (Hlt : (k < List.length (loadPredefinedPhotos loads order []))%nat).
    { rewrite Hphotos, length_map. apply nth_error_Some. congruence. }
    destruct (PolaroidsProps.photoData_record _ g k Hlt)
      as [d [Hd [Hid [Hurl _]]]].
    exists d. split; [exact Hd |]. split; [exact Hid |].
    rewrite Hurl, Hphotos. apply map_nth_error. exact Hk.
Qed.

Lemma placards_follow_photos_witness :
  let loads := fun i => ((i =? 2) || (i =? 10))%nat in
  let g := Polaroids.mkRng (fun _ => 0.5) 0 in
  exists d,
    nth_error (fst (Polaroids.photoData
                      (loadPredefinedPhotos loads (rev (seq 1 maxPhotos)) [])
                      g)) 1 = Some d
    /\ Polaroids.url d = Some "/photos/10.jpg".
Proof.
  intros loads g.
  assert (Hperm : Permutation (rev (seq 1 maxPhotos)) (seq 1 maxPhotos))
    by (apply Permutation_sym, Permutation_rev).
  destruct (placards_follow_photos loads (rev (seq 1 maxPhotos)) g Hperm)
    as [_ [_ H]].
  destruct (H 1%nat 10%nat eq_refl) as [d [Hd [_ Hurl]]].
  exists d. split; [exact Hd | exact Hurl].
Defined.

(** X21. Toggling the mode always changes it, and toggling twice restores
    it; each toggle swaps the target the placards ease toward between the
    formed and the chaos position. *)
Theorem toggle_swaps (mode : TreeMode) (d : Polaroids.PhotoData) :
  toggleMode mode <> mode
  /\ toggleMode (toggleMode mode) = mode
  /\ (Polaroids.selectTarget mode d = Polaroids.targetPos d ->
      Polaroids.selectTarget (toggleMode mode) d = Polaroids.chaosPos d)
  /\ (Polaroids.selectTarget mode d = Polaroids.chaosPos d ->
      Polaroids.selectTarget (toggleMode mode) d = Polaroids.targetPos d).
Proof.
  destruct mode; cbn; repeat split; try discriminate; auto.
Qed.

Lemma toggle_swaps_witness :
  let d := Polaroids.mkPhotoData 0 (Some "/photos/1.jpg")
             (mkVector3 3.6 5 16) (mkVector3 4.8 1.8 0) 1.5 in
  Polaroids.selectTarget (toggleMode FORMED) d = Polaroids.chaosPos d.
Proof.
  intros d.
  apply (proj1 (proj2 (proj2 (toggle_swaps FORMED d)))). reflexivity.
Defined.

End AppProps.
